(** * json-schema-ref-parser: the HTTP resolver, the YAML parser and the
      dereferencer's bookkeeping

    A shallow embedding of [lib/resolvers/http.js] and [lib/parsers/yaml.js],
    followed by a model of the catalog and the dereferencer as the
    specification describes them, and the properties proved about each.

    Layout: Part I holds the definitions (one module per source file),
    Part II the lemmas and theorems. *)

From Stdlib Require Import ZArith List String Ascii Bool Lia DecimalString Floats.
Import ListNotations.

Set Warnings "-register-all".
Local Open Scope Z_scope.
Local Open Scope string_scope.

(* ================================================================= *)
(** * Part I. Definitions *)
(* ================================================================= *)

(** ** JavaScript data shared by the modules *)

Module Js.

(** A Node [Buffer]: a sequence of bytes. *)
Definition Buffer : Type := list Byte.byte.

(** [Buffer.alloc(n)]: [n] zero bytes. *)
Definition Buffer_alloc (n : nat) : Buffer := repeat Byte.x00 n.

(** [Buffer.concat([a, b])]. *)
Definition Buffer_concat (parts : list Buffer) : Buffer := List.concat parts.

(** A plain JavaScript [Error] as node or a library throws it. *)
Record Exception : Type := mkException {
  exn_name : string;
  exn_message : string
}.

(** The error values the two modules build.  Each constructor records the
    call that made the value, with its arguments in the order of the call:
    - [OnoProps st m] is [ono({ status: st }, m)],
    - [OnoWrap err m] is [ono(err, m)],
    - [ResolverError ex source] is [new ResolverError(ex, source)], the
      source being [None] when the call passes one argument only,
    - [ParserError m source] is [new ParserError(m, source)]. *)
Inductive JsError : Type :=
| Plain (e : Exception)
| OnoProps (status : Z) (message : string)
| OnoWrap (err : JsError) (message : string)
| ResolverError (ex : JsError) (source : option string)
| ParserError (message : string) (source : string).

Definition isResolverError (e : JsError) : bool :=
  match e with ResolverError _ _ => true | _ => false end.

Definition isParserError (e : JsError) : bool :=
  match e with ParserError _ _ => true | _ => false end.

(** The second argument of the constructor call, for the two error classes
    of the library. *)
Definition source_of (e : JsError) : option string :=
  match e with
  | ResolverError _ s => s
  | ParserError _ s => Some s
  | _ => None
  end.

(** A settled promise. *)
Inductive Settled (A : Type) : Type :=
| Resolved (a : A)
| Rejected (e : JsError).
Arguments Resolved {A} a.
Arguments Rejected {A} e.

(** JavaScript values as a file's [data] may hold them.  Numbers are IEEE
    doubles. *)
Inductive JsValue : Type :=
| JUndefined
| JNull
| JBool (b : bool)
| JNumber (x : float)
| JString (s : string)
| JBuffer (b : Buffer)
| JArray (items : list JsValue)
| JObject (props : list (string * JsValue))
| JFunction (name : string).

(** Truthiness of a value that is [undefined] or a string:
    [!x] is [negb (truthy x)]. *)
Definition truthy (x : option string) : bool :=
  match x with
  | None => false
  | Some s => negb (s =? "")
  end.

(** A number inside a template literal. *)
Definition string_of_Z (z : Z) : string := NilZero.string_of_int (Z.to_int z).

(** The line feed of a [\n] escape. *)
Definition nl : string := String (ascii_of_nat 10) "".

(** [parts.join(sep)]. *)
Definition join (sep : string) (parts : list string) : string := String.concat sep parts.

(** [s] occurs in [t]. *)
Definition contains (t s : string) : Prop := exists pre post, t = pre ++ s ++ post.

(** The file descriptor handed to resolvers and parsers. *)
Record File : Type := mkFile {
  url : string;
  extension : string;
  data : JsValue
}.

End Js.
Import Js.

(* ----------------------------------------------------------------- *)
(** ** lib/resolvers/http.js *)

Module HttpResolver.

(** A parsed [Url] object, with the fields the module reads. *)
Record Url : Type := mkUrl {
  protocol : option string;
  hostname : option string;
  port : option string;
  path : option string;
  auth : option string;
  href : string
}.

Definition with_protocol (u : Url) (p : option string) : Url :=
  mkUrl p (hostname u) (port u) (path u) (auth u) (href u).

(** [download] takes "a parsed Url object" or a string. *)
Inductive UrlOrString : Type :=
| UrlObj (u : Url)
| UrlStr (s : string).

Definition Headers : Type := list (string * string).

(** [headers.location]: the property of the headers object. *)
Fixpoint lookup (name : string) (h : Headers) : option string :=
  match h with
  | [] => None
  | (k, v) :: rest => if k =? name then Some v else lookup name rest
  end.

(** The resolver object itself ([module.exports], the [httpOptions] of [get]
    and [download]). *)
Record HttpOptions : Type := mkHttpOptions {
  order : Z;
  headers : option Headers;
  timeout : Z;
  redirects : Z;
  withCredentials : bool
}.

Definition defaults : HttpOptions := mkHttpOptions 200 None 5000 5 false.

(** The argument of [protocol.get]. *)
Record RequestOptions : Type := mkRequest {
  req_hostname : option string;
  req_port : option string;
  req_path : option string;
  req_auth : option string;
  req_protocol : option string;
  req_headers : Headers;
  req_withCredentials : bool
}.

Inductive NodeModule : Type := node_http | node_https.

(** What one request of node's [http]/[https] module comes to: an ['error']
    on the request (an aborted request after a timeout included), or a
    ['response'] followed by its ['data'] chunks and then ['end'] ([None])
    or an ['error'] on the response. *)
Inductive Reply : Type :=
| RequestError (e : JsError)
| Response (statusCode : Z) (headers : Headers) (chunks : list Buffer) (ending : option JsError).

(** The [res] object that [get] resolves with. *)
Record Res : Type := mkRes {
  statusCode : Z;
  res_headers : Headers;
  body : Buffer
}.

(** What the module takes from outside: [../util/url], node's network
    modules, and the [process] and [location] globals.  [World] is the state
    of the network, threaded through the requests. *)
Class Platform : Type := {
  World : Type;
  url_parse : UrlOrString -> Url;
  url_resolve : Url -> string -> string;
  url_isHttp : string -> bool;
  node_get : NodeModule -> RequestOptions -> Z -> World -> Reply * World;
  process_browser : bool;
  location_href : string
}.

Section Resolver.
Context {P : Platform}.

(** [get(u, httpOptions)]. *)
Definition get (u : Url) (httpOptions : HttpOptions) (w : World)
  : Settled Res * World :=
  let protocol_ :=
    match protocol u with
    | Some p => if p =? "https:" then node_https else node_http
    | None => node_http
    end in
  let req :=
    mkRequest (hostname u) (port u) (path u) (auth u) (protocol u)
              (match headers httpOptions with Some h => h | None => [] end)
              (withCredentials httpOptions) in
  match node_get protocol_ req (timeout httpOptions) w with
  | (RequestError e, w') => (Rejected e, w')
  | (Response st hs chunks ending, w') =>
      let body_ :=
        fold_left (fun acc chunk => Buffer_concat [acc; chunk]) chunks (Buffer_alloc 0) in
      match ending with
      | Some e => (Rejected e, w')
      | None => (Resolved (mkRes st hs body_), w')
      end
  end.

(** The message of the too-many-redirects error. *)
Definition too_many_redirects (redirects_ : list string) : string :=
  "Error downloading " ++ nth 0%nat redirects_ "undefined"
    ++ ". " ++ nl ++ "Too many redirects: " ++ nl ++ "  "
    ++ join (" " ++ nl ++ "  ") redirects_.

(** What the [then] callback of [download] does with a response: it
    throws, calls [reject], calls [resolve], or downloads the redirect. *)
Inductive Handled : Type :=
| Throw (e : JsError)
| Reject (e : JsError)
| Resolve (b : Buffer)
| Follow (redirectTo : string).

(** The [then] callback of [download].  [!res.headers.location] holds for a
    missing header and for an empty one.  [res.body] is the buffer that
    [get] built, an object, hence truthy: [res.body || Buffer.alloc(0)] is
    [res.body]. *)
Definition onResponse (u : Url) (httpOptions : HttpOptions)
           (redirects_ : list string) (res : Res) : Handled :=
  if statusCode res >=? 400 then
    Throw (OnoProps (statusCode res) ("HTTP ERROR " ++ string_of_Z (statusCode res)))
  else if statusCode res >=? 300 then
    if Z.of_nat (List.length redirects_) >? redirects httpOptions then
      Reject (ResolverError
                (OnoProps (statusCode res) (too_many_redirects redirects_))
                None)
    else
      match lookup "location" (res_headers res) with
      | Some location =>
          if negb (truthy (Some location)) then
            Throw (OnoProps (statusCode res)
                     ("HTTP " ++ string_of_Z (statusCode res)
                              ++ " redirect with no location header"))
          else Follow (url_resolve u location)
      | None =>
          Throw (OnoProps (statusCode res)
                   ("HTTP " ++ string_of_Z (statusCode res)
                            ++ " redirect with no location header"))
      end
  else
    Resolve (body res).

(** The [catch] callback of [download]. *)
Definition onCatch (u : Url) (err : JsError) : JsError :=
  ResolverError (OnoWrap err ("Error downloading " ++ href u)) (Some (href u)).

(** The body of [download(u, httpOptions, redirects)]; [download_] stands
    for the function itself in the recursive call
    [download(redirectTo, httpOptions, redirects).then(resolve, reject)].
    The array [redirects] is shared by all the calls of one download: each
    call pushes its URL on it and hands it on. *)
Definition download_body
           (download_ : UrlOrString -> option (list string) -> World
                        -> option (Settled Buffer * World))
           (u : UrlOrString) (httpOptions : HttpOptions)
           (redirects_ : option (list string)) (w : World)
  : option (Settled Buffer * World) :=
  let u := url_parse u in
  let redirects_ := match redirects_ with Some r => r | None => [] end in
  let redirects_ := (redirects_ ++ [href u])%list in
  match get u httpOptions w with
  | (Rejected err, w') => Some (Rejected (onCatch u err), w')
  | (Resolved res, w') =>
      match onResponse u httpOptions redirects_ res with
      | Throw err => Some (Rejected (onCatch u err), w')
      | Reject e => Some (Rejected e, w')
      | Resolve b => Some (Resolved b, w')
      | Follow redirectTo => download_ (UrlStr redirectTo) (Some redirects_) w'
      end
  end.

(** The recursion of the source is bounded by [httpOptions.redirects]; here
    it runs on [fuel] ([None]: the fuel ran out), and [download] below
    supplies as much as the bound asks for. *)
Fixpoint download_fuel (fuel : nat) (httpOptions : HttpOptions) (u : UrlOrString)
         (redirects_ : option (list string)) (w : World)
  : option (Settled Buffer * World) :=
  match fuel with
  | O => None
  | S fuel' => download_body (download_fuel fuel' httpOptions) u httpOptions redirects_ w
  end.

(** The number of requests [download] can still make. *)
Definition enough (httpOptions : HttpOptions) (redirects_ : option (list string)) : nat :=
  S (Z.to_nat (redirects httpOptions
               - Z.of_nat (List.length (match redirects_ with Some r => r | None => [] end)))).

Definition download (u : UrlOrString) (httpOptions : HttpOptions)
           (redirects_ : option (list string)) (w : World)
  : option (Settled Buffer * World) :=
  download_fuel (enough httpOptions redirects_) httpOptions u redirects_ w.

(** One request of a download and what came back: the URL requested, the
    array [redirects] after the push, and the outcome of [get]. *)
Record Exchange : Type := mkExchange {
  requested : Url;
  followed : list string;
  reply : Settled Res
}.

(** The requests [download] makes, in order: the recursion of
    [download_body], keeping each request instead of the result. *)
Definition exchanges_body
           (exchanges_ : UrlOrString -> option (list string) -> World -> list Exchange)
           (u : UrlOrString) (httpOptions : HttpOptions)
           (redirects_ : option (list string)) (w : World) : list Exchange :=
  let u := url_parse u in
  let redirects_ := match redirects_ with Some r => r | None => [] end in
  let redirects_ := (redirects_ ++ [href u])%list in
  match get u httpOptions w with
  | (Rejected err, w') => [mkExchange u redirects_ (Rejected err)]
  | (Resolved res, w') =>
      mkExchange u redirects_ (Resolved res) ::
      match onResponse u httpOptions redirects_ res with
      | Follow redirectTo => exchanges_ (UrlStr redirectTo) (Some redirects_) w'
      | _ => []
      end
  end.

Fixpoint exchanges_fuel (fuel : nat) (httpOptions : HttpOptions) (u : UrlOrString)
         (redirects_ : option (list string)) (w : World) : list Exchange :=
  match fuel with
  | O => []
  | S fuel' => exchanges_body (exchanges_fuel fuel' httpOptions) u httpOptions redirects_ w
  end.

Definition exchanges (u : UrlOrString) (httpOptions : HttpOptions)
           (redirects_ : option (list string)) (w : World) : list Exchange :=
  exchanges_fuel (enough httpOptions redirects_) httpOptions u redirects_ w.

(** A 3xx response. *)
Definition is_redirect (x : Exchange) : bool :=
  match reply x with
  | Resolved res => ((300 <=? statusCode res) && (statusCode res <? 400))%Z
  | Rejected _ => false
  end.

(** How many of the exchanges ended in a 3xx response. *)
Definition redirect_count (xs : list Exchange) : nat :=
  List.length (filter is_redirect xs).

(** The URLs requested, in order. *)
Definition requested_hrefs (xs : list Exchange) : list string :=
  map (fun x => href (requested x)) xs.

(** [canRead(file)]. *)
Definition canRead (file : File) : bool := url_isHttp (url file).

(** The [u] that [read] hands to [download]. *)
Definition read_url (file : File) : Url :=
  let u := url_parse (UrlStr (url file)) in
  if process_browser && negb (truthy (protocol u))
  then with_protocol u (protocol (url_parse (UrlStr location_href)))
  else u.

(** [read(file)], [this] being the resolver object. *)
Definition read (this : HttpOptions) (file : File) (w : World)
  : option (Settled Buffer * World) :=
  download (UrlObj (read_url file)) this None w.

Definition read_exchanges (this : HttpOptions) (file : File) (w : World)
  : list Exchange :=
  exchanges (UrlObj (read_url file)) this None w.

End Resolver.

End HttpResolver.


(* ----------------------------------------------------------------- *)
(** ** Concrete networks for the HTTP resolver *)

Module HttpScenarios.
Import HttpResolver.

(** URLs taken whole: parsing keeps the string as [href] and as [path], a
    [Location] is an absolute URL, and the world counts the requests made. *)
Definition parse_whole (u : UrlOrString) : Url :=
  match u with
  | UrlObj u => u
  | UrlStr s => mkUrl (Some "http:") (Some "example.com") None (Some s) None s
  end.

Definition unreachable : Reply :=
  RequestError (Plain (mkException "Error" "getaddrinfo ENOTFOUND")).

(** A server given by a table from URL to reply. *)
Definition table_get (routes : list (string * Reply))
           (_ : NodeModule) (req : RequestOptions) (_ : Z) (w : nat) : Reply * nat :=
  (match req_path req with
   | Some p =>
       match find (fun kv => fst kv =? p) routes with
       | Some kv => snd kv
       | None => unreachable
       end
   | None => unreachable
   end, S w).

Definition table_platform (routes : list (string * Reply)) : Platform :=
  {| World := nat;
     url_parse := parse_whole;
     url_resolve := fun _ location => location;
     url_isHttp := fun s => String.prefix "http" s;
     node_get := table_get routes;
     process_browser := false;
     location_href := "" |}.

Definition redirect_to (location : string) : Reply :=
  Response 302 [("location", location)] [] None.

Definition ok (b : Buffer) : Reply :=
  Response 200 [("content-type", "application/json")] [b] None.

Definition A : string := "http://example.com/a.json".
Definition B : string := "http://example.com/b.json".
Definition C : string := "http://example.com/c.json".
Definition D : string := "http://example.com/d.json".

(** An empty JSON object, [{}]. *)
Definition braces : Buffer := [Byte.x7b; Byte.x7d].

(** S4: the chain A -> B -> C -> D. *)
Definition chain_ABCD : list (string * Reply) :=
  [(A, redirect_to B); (B, redirect_to C); (C, redirect_to D); (D, ok braces)].

(** One redirect, then the document. *)
Definition chain_AB : list (string * Reply) :=
  [(A, redirect_to B); (B, ok braces)].

(** A 302 whose [Location] header is there and empty. *)
Definition empty_location : list (string * Reply) :=
  [(A, Response 302 [("location", "")] [] None)].

(** A 404. *)
Definition not_found : list (string * Reply) :=
  [(A, Response 404 [] [] None)].

(** A 301 with no [Location] header. *)
Definition moved_nowhere : list (string * Reply) :=
  [(A, Response 301 [] [] None)].

Definition fileA : File := mkFile A ".json" JUndefined.

Definition with_redirects (n : Z) : HttpOptions :=
  mkHttpOptions (order defaults) (headers defaults) (timeout defaults) n
                (withCredentials defaults).

End HttpScenarios.

(* ----------------------------------------------------------------- *)
(** ** lib/parsers/yaml.js *)

Module YamlParser.

(** The schemas of js-yaml. *)
Inductive Schema : Type := FAILSAFE_SCHEMA | JSON_SCHEMA | CORE_SCHEMA | DEFAULT_SCHEMA.

(** Character encodings of [Buffer.prototype.toString]. *)
Inductive Encoding : Type := utf8 | utf16le | latin1 | base64 | hex.

(** What a call of [yaml.load] comes to: the loaded value, or an exception. *)
Inductive Loaded : Type :=
| Value (v : JsValue)
| Throws (e : Exception).

(** What the module takes from outside: js-yaml's [load] and node's decoding
    of a buffer into a string (no bytes give the empty string). *)
Class Platform : Type := {
  yaml_load : string -> Schema -> Loaded;
  decode : Encoding -> Buffer -> string;
  decode_empty : forall enc, decode enc [] = ""
}.

(** The parser object ([module.exports]) without its method. *)
Record Parser : Type := mkParser {
  order : Z;
  allowEmpty : bool;
  canParse : list string
}.

(** The object as the module exports it. *)
Definition yaml : Parser := mkParser 200 true [".yaml"; ".yml"; ".json"].

(** [Buffer.isBuffer(data)] and [typeof data === 'string']. *)
Definition Buffer_isBuffer (v : JsValue) : bool :=
  match v with JBuffer _ => true | _ => false end.

Definition is_string (v : JsValue) : bool :=
  match v with JString _ => true | _ => false end.

(** A plain JSON value: null, a boolean, a finite number, a string, an array
    or an object of such values. *)
Fixpoint is_json (v : JsValue) : bool :=
  match v with
  | JNull | JBool _ | JString _ => true
  | JNumber x => PrimFloat.is_finite x
  | JArray items => forallb is_json items
  | JObject props => forallb (fun kv => match kv with (_, v') => is_json v' end) props
  | JUndefined | JBuffer _ | JFunction _ => false
  end.

Section Parse.
Context {P : Platform}.

(** [buf.toString(encoding)]; the encoding defaults to ['utf8']. *)
Definition Buffer_toString (b : Buffer) (encoding : option Encoding) : string :=
  decode (match encoding with Some e => e | None => utf8 end) b.

(** [parse(file)], [this] being the parser object.  The function is [async]:
    its result is a settled promise. *)
Definition parse (this : Parser) (file : File) : Settled JsValue :=
  let data_ := data file in
  let data_ :=
    match data_ with
    | JBuffer b => JString (Buffer_toString b None)
    | _ => data_
    end in
  match data_ with
  | JString s =>
      match yaml_load s JSON_SCHEMA with
      | Value v => Resolved v
      | Throws e => Rejected (ParserError (exn_message e) (url file))
      end
  | _ => Resolved data_
  end.

End Parse.

End YamlParser.

(* ----------------------------------------------------------------- *)
(** ** Stand-ins for js-yaml *)

Module YamlScenarios.
Import YamlParser.

(** The bytes of a buffer taken as the characters of a string. *)
Definition bytes_as_text (_ : Encoding) (b : Buffer) : string := string_of_list_byte b.

Definition loader_platform (load : string -> Loaded) : Platform :=
  {| yaml_load := fun s _ => load s;
     decode := bytes_as_text;
     decode_empty := fun _ => eq_refl |}.

Definition bad_indentation : Exception :=
  mkException "YAMLException" "bad indentation of a mapping entry".

(** A loader that takes the empty text for [null] and a pair of braces for
    an empty object, and rejects the rest. *)
Definition empty_is_null (s : string) : Loaded :=
  if s =? "" then Value JNull
  else if s =? "{}" then Value (JObject [])
  else Throws bad_indentation.

Definition empty_yaml : File := mkFile "file:///specs/empty.yaml" ".yaml" (JBuffer []).

Definition broken_yaml : File := mkFile "file:///specs/broken.yaml" ".yaml" (JString "a: b: c").

Definition nan_data : File := mkFile "file:///specs/number.json" ".json" (JNumber PrimFloat.nan).

Definition with_allowEmpty (b : bool) : Parser :=
  mkParser (order yaml) b (canParse yaml).

Definition sample_object : File :=
  mkFile "file:///specs/sample.json" ".json"
         (JObject [("type", JString "object"); ("required", JArray [JString "name"])]).

(** The statement that the parser itself enforces [allowEmpty] on zero-byte
    input. *)
Definition allowEmpty_enforced_by_parse (P : Platform) : Prop :=
  forall u ext : string,
    parse (with_allowEmpty true) (mkFile u ext (JBuffer [])) = Resolved JNull
    /\ parse (with_allowEmpty false) (mkFile u ext (JBuffer []))
       = Rejected (ParserError "empty" u).

End YamlScenarios.

(* ----------------------------------------------------------------- *)
(** ** The catalog, the crawler and the dereferencer

    The class [$RefParser] that the tests load from [lib], with its
    [parse] and [dereference], the catalog [$refs], the pointer engine, the
    crawler and the dereferencer behind them, and [lib/util/url] are not
    among the sources at hand: two test files of [parse] and [dereference]
    are.  This module models those operations from the specification (its
    sections 3, 4.1 and 4.4 to 4.7, and the design note on node
    identity). *)

Module Refs.

(** *** Strings *)

(** The text before the first [c], and the text from it on. *)
Fixpoint break_at (c : ascii) (s : string) : string * string :=
  match s with
  | EmptyString => ("", "")
  | String a rest =>
      if Ascii.eqb a c then ("", s)
      else let (before, from_c) := break_at c rest in (String a before, from_c)
  end.

(** The pieces of [s] between the occurrences of [c]. *)
Fixpoint split_on (c : ascii) (s : string) : list string :=
  match s with
  | EmptyString => [""]
  | String a rest =>
      match split_on c rest with
      | piece :: pieces =>
          if Ascii.eqb a c then "" :: piece :: pieces else String a piece :: pieces
      | [] => [String a ""]
      end
  end.

Definition hex_digit (a : ascii) : option nat :=
  let n := nat_of_ascii a in
  if ((48 <=? n) && (n <=? 57))%nat then Some (n - 48)%nat
  else if ((65 <=? n) && (n <=? 70))%nat then Some (n - 55)%nat
  else if ((97 <=? n) && (n <=? 102))%nat then Some (n - 87)%nat
  else None.

(** Modelled from the spec: the URI-fragment decoding of the Pointer
    Engine (section 2, item 5): a percent sign and two hexadecimal digits
    stand for the byte they spell. *)
Fixpoint percent_decode (s : string) : string :=
  match s with
  | String "%" (String h (String l rest) as after) =>
      match hex_digit h, hex_digit l with
      | Some x, Some y => String (ascii_of_nat (16 * x + y)) (percent_decode rest)
      | _, _ => String "%" (percent_decode after)
      end
  | String a rest => String a (percent_decode rest)
  | EmptyString => ""
  end.

(** Modelled from the spec: the token escapes of the Pointer Engine
    (section 4.5): [~1] decodes to [/] and [~0] to [~]. *)
Fixpoint tilde_decode (s : string) : string :=
  match s with
  | String "~" (String "1" rest) => String "/" (tilde_decode rest)
  | String "~" (String "0" rest) => String "~" (tilde_decode rest)
  | String a rest => String a (tilde_decode rest)
  | EmptyString => ""
  end.

Fixpoint tilde_encode (s : string) : string :=
  match s with
  | String "~" rest => "~0" ++ tilde_encode rest
  | String "/" rest => "~1" ++ tilde_encode rest
  | String a rest => String a (tilde_encode rest)
  | EmptyString => ""
  end.

(** *** URL Normalizer (section 4.1) *)

(** Modelled from the spec: [stripHash(s)] of the missing [lib/util/url],
    "everything before [#]". *)
Definition stripHash (s : string) : string := fst (break_at "#" s).

(** Modelled from the spec: [getHash(s)] of the missing [lib/util/url],
    "the [#...] tail or [#] if none". *)
Definition getHash (s : string) : string :=
  match snd (break_at "#" s) with
  | EmptyString => "#"
  | tail => tail
  end.

(** The segments of a path with [.] and [..] resolved (RFC 3986, 5.2.4);
    [done] holds the segments kept so far, last first. *)
Fixpoint remove_dot_segments (done todo : list string) : list string :=
  match todo with
  | [] => rev done
  | seg :: rest =>
      if seg =? "." then remove_dot_segments done rest
      else if seg =? ".." then remove_dot_segments (tl done) rest
      else remove_dot_segments (seg :: done) rest
  end.

Definition has_scheme (s : string) : bool :=
  String.prefix "file:" s || String.prefix "http:" s || String.prefix "https:" s.

(** Modelled from the spec: [resolve(base, ref)] of the missing
    [lib/util/url], "RFC 3986 reference resolution", for the references
    that schemas use: a bare fragment, an absolute URL, or a relative path,
    which is merged with the base's path up to its last [/]. *)
Definition url_resolve (base ref : string) : string :=
  let path := stripHash ref in
  let hash := snd (break_at "#" ref) in
  if path =? "" then stripHash base ++ hash
  else if has_scheme path then ref
  else
    let dir := removelast (split_on "/" (stripHash base)) in
    String.concat "/" (remove_dot_segments (rev dir) (split_on "/" path)) ++ hash.

(** *** Errors (section 7) *)

Inductive ErrorKind : Type :=
| ResolverError_
| ParserError_
| MissingPointerError
| InvalidPointerError
| ReferenceError.

(** The result of an operation: a value, an error of the taxonomy, or
    [Exhausted] when the model's fuel ran out before the operation ended. *)
Inductive Result (A : Type) : Type :=
| Ok (a : A)
| Err (e : ErrorKind)
| Exhausted.
Arguments Ok {A} a.
Arguments Err {A} e.
Arguments Exhausted {A}.

Definition bind {A B : Type} (r : Result A) (k : A -> Result B) : Result B :=
  match r with
  | Ok a => k a
  | Err e => Err e
  | Exhausted => Exhausted
  end.

Notation "'let*' x ':=' r 'in' k" := (bind r (fun x => k))
  (at level 10, x pattern, r at level 100, k at level 200).

(** *** Pointer Engine (section 4.5) *)

(** A JSON Pointer as its tokens, decoded. *)
Definition Pointer : Type := list string.

(** A place in a document: the canonical URL and a pointer. *)
Definition Loc : Type := (string * Pointer)%type.

Definition loc_eqb (a b : Loc) : bool :=
  (fst a =? fst b) && (if list_eq_dec string_dec (snd a) (snd b) then true else false).

(** Modelled from the spec: the missing pointer engine's reading of a
    fragment.  "Tokens are [/]-delimited ...; empty pointer targets the
    root"; a fragment that is not empty and does not start with [/] is
    "syntactically invalid". *)
Definition parse_pointer (hash : string) : Result Pointer :=
  match hash with
  | EmptyString | String "#" EmptyString => Ok []
  | String "#" (String "/" rest) =>
      Ok (map (fun t => tilde_decode (percent_decode t)) (split_on "/" rest))
  | _ => Err InvalidPointerError
  end.

(** The pointer string of a path from the root, behind the root's URL. *)
Definition render_pointer (root : string) (path : Pointer) : string :=
  root ++ "#" ++ String.concat "" (map (fun t => "/" ++ tilde_encode t) path).

(** *** Ref nodes (section 3) *)

Fixpoint get_prop (key : string) (props : list (string * JsValue)) : option JsValue :=
  match props with
  | [] => None
  | (k, v) :: rest => if k =? key then Some v else get_prop key rest
  end.

(** Modelled from the spec: "Ref node.  A map whose ordered keys contain
    [$ref] with a string value."  The string, when [v] is one. *)
Definition ref_of (v : JsValue) : option string :=
  match v with
  | JObject props =>
      match get_prop "$ref" props with
      | Some (JString s) => Some s
      | _ => None
      end
  | _ => None
  end.

Definition index_token (n : nat) : string := string_of_Z (Z.of_nat n).

(** Modelled from the spec: one step of the missing pointer engine's
    navigation.  A map is entered by key, a sequence by an index in
    "canonical decimal without leading zeros"; anything else is "path not
    found". *)
Definition child (v : JsValue) (token : string) : Result JsValue :=
  match v with
  | JObject props =>
      match get_prop token props with
      | Some v' => Ok v'
      | None => Err MissingPointerError
      end
  | JArray items =>
      match find (fun n => index_token n =? token) (seq 0 (List.length items)) with
      | Some n => match nth_error items n with
                  | Some v' => Ok v'
                  | None => Err MissingPointerError
                  end
      | None => Err MissingPointerError
      end
  | _ => Err MissingPointerError
  end.

(** The keys under which the children of a value sit, in document order. *)
Definition child_tokens (v : JsValue) : list string :=
  match v with
  | JObject props => map fst props
  | JArray items => map index_token (seq 0 (List.length items))
  | _ => []
  end.

(** *** Document Catalog (section 4.4) *)

(** A document entry: its URL and its parsed value. *)
Definition Docs : Type := list (string * JsValue).

Fixpoint get_doc (u : string) (docs : Docs) : option JsValue :=
  match docs with
  | [] => None
  | (k, v) :: rest => if k =? u then Some v else get_doc u rest
  end.

(** Modelled from the spec: the catalog [$refs], whose class is missing,
    "map from absolute URL to a document entry", with its bookkeeping flags
    [circular] and [circularRefs]. *)
Record Catalog : Type := mkCatalog {
  docs : Docs;
  circular : bool;
  circularRefs : list string
}.

Definition exists_ (c : Catalog) (u : string) : bool :=
  match get_doc u (docs c) with Some _ => true | None => false end.

Definition paths (c : Catalog) : list string := map fst (docs c).

(** The target of the ref string [s] found in the document [docURL]:
    "resolve [s] against the current document URL" and "split into
    [(docURL, pointer)]" (section 4.6). *)
Definition target (docURL s : string) : Result Loc :=
  let absolute := url_resolve docURL s in
  let* pointer := parse_pointer (getHash absolute) in
  Ok (stripHash absolute, pointer).

(** The number of nodes of a value, and of all the documents. *)
Fixpoint size_of (v : JsValue) : nat :=
  match v with
  | JArray items => S (list_sum (map size_of items))
  | JObject props => S (list_sum (map (fun kv => match kv with (_, v') => size_of v' end) props))
  | _ => 1
  end.

Definition docs_size (ds : Docs) : nat := list_sum (map (fun kv => size_of (snd kv)) ds).

(** The steps granted to a walk over the documents [ds]: the walks that
    end need fewer. *)
Definition budget (ds : Docs) : nat := S (docs_size ds) * S (docs_size ds).

(** Modelled from the spec: [resolve(url, pointer)] of the missing catalog,
    which "walks the JSON Pointer into the document, following nested [$ref]
    values encountered mid-path by consulting the catalog".  The result is
    the place reached, free of refs on the way, and the value there.
    In [walk fuel ds docURL v walked todo], [v] sits at [(docURL, walked)]
    and the tokens [todo] are still to go. *)
Fixpoint walk (fuel : nat) (ds : Docs) (docURL : string) (v : JsValue)
         (walked todo : Pointer) : Result (Loc * JsValue) :=
  match fuel with
  | O => Exhausted
  | S fuel' =>
      match todo with
      | [] => Ok ((docURL, walked), v)
      | token :: rest =>
          match ref_of v with
          | Some s =>
              let* t := target docURL s in
              match get_doc (fst t) ds with
              | None => Err MissingPointerError
              | Some root => walk fuel' ds (fst t) root [] (snd t ++ todo)%list
              end
          | None =>
              let* v' := child v token in
              walk fuel' ds docURL v' (walked ++ [token])%list rest
          end
      end
  end.

Definition locate (ds : Docs) (loc : Loc) : Result (Loc * JsValue) :=
  match get_doc (fst loc) ds with
  | None => Err MissingPointerError
  | Some root => walk (budget ds + List.length (snd loc)) ds (fst loc) root [] (snd loc)
  end.

(** *** Crawler (section 4.6) *)

(** The files that the resolver and parser registries can deliver: the
    parsed value behind each URL. *)
Definition Files : Type := list (string * JsValue).

(** Modelled from the spec: the missing read-and-parse pipeline, for one
    document; a URL that no resolver can read fails with [ResolverError]. *)
Definition read_and_parse (files : Files) (u : string) : Result JsValue :=
  match get_doc u files with
  | Some v => Ok v
  | None => Err ResolverError_
  end.

(** Modelled from the spec: the missing crawler's ref strings of a value,
    found by "a depth-first traversal visiting every node"; "sibling keys
    next to [$ref] are not traversed". *)
Fixpoint refs_in (v : JsValue) : list string :=
  match v with
  | JObject props =>
      match ref_of v with
      | Some s => [s]
      | None => flat_map (fun kv => match kv with (_, v') => refs_in v' end) props
      end
  | JArray items => flat_map refs_in items
  | _ => []
  end.

(** Modelled from the spec: the missing crawler's run to the fixpoint.
    Each URL of [pending] that "is not in the catalog" is read, parsed and
    entered, and the documents its refs name are scheduled in turn. *)
Fixpoint crawl (fuel : nat) (files : Files) (ds : Docs) (pending : list string)
  : Result Docs :=
  match fuel with
  | O => Exhausted
  | S fuel' =>
      match pending with
      | [] => Ok ds
      | u :: rest =>
          match get_doc u ds with
          | Some _ => crawl fuel' files ds rest
          | None =>
              let* v := read_and_parse files u in
              crawl fuel' files (ds ++ [(u, v)])%list
                    (rest ++ map (fun s => stripHash (url_resolve u s)) (refs_in v))%list
          end
      end
  end.

(** *** Dereferencer (section 4.7) *)

(** Modelled from the spec: the option [dereference.circular], "one of
    [{true (share), false (reject), "ignore" (leave $ref)}]". *)
Inductive CircularOption : Type := share | reject | ignore.

(** Modelled from the spec: the nodes of the output tree, as "entries in an
    arena keyed by integer ids" (section 9): a leaf holds a value, a branch
    holds the ids of its children under their keys. *)
Inductive Node : Type :=
| Leaf (v : JsValue)
| Branch (is_array : bool) (children : list (string * nat)).

(** An arena entry: the node and the place of the input it was made from. *)
Record Entry : Type := mkEntry {
  origin : Loc;
  node : Node
}.

(** Modelled from the spec: the state of the missing dereferencer: the
    next free id, the node made for each place so far ("whichever is
    visited first defines identity"), the arena, the stack of frames being
    expanded, and the two flags. *)
Record State : Type := mkState {
  next : nat;
  memo : list (Loc * nat);
  arena : list (nat * Entry);
  stack : list Loc;
  st_circular : bool;
  st_circularRefs : list string
}.

Fixpoint memo_get (loc : Loc) (m : list (Loc * nat)) : option nat :=
  match m with
  | [] => None
  | (k, i) :: rest => if loc_eqb k loc then Some i else memo_get loc rest
  end.

Definition on_stack (loc : Loc) (st : State) : bool :=
  existsb (loc_eqb loc) (stack st).

(** A new node for the place [loc], known to the memo from now on. *)
Definition alloc (st : State) (loc : Loc) : State * nat :=
  (mkState (S (next st)) ((loc, next st) :: memo st) (arena st) (stack st)
           (st_circular st) (st_circularRefs st),
   next st).

(** A new node outside the memo: a [$ref] left in place. *)
Definition alloc_anonymous (st : State) : State * nat :=
  (mkState (S (next st)) (memo st) (arena st) (stack st)
           (st_circular st) (st_circularRefs st),
   next st).

Definition push (loc : Loc) (st : State) : State :=
  mkState (next st) (memo st) (arena st) (loc :: stack st)
          (st_circular st) (st_circularRefs st).

Definition pop (st : State) : State :=
  mkState (next st) (memo st) (arena st) (tl (stack st))
          (st_circular st) (st_circularRefs st).

Definition store (st : State) (i : nat) (e : Entry) : State :=
  mkState (next st) (memo st) ((i, e) :: arena st) (stack st)
          (st_circular st) (st_circularRefs st).

(** "Record the ref's own pointer in [circularRefs] and set
    [circular = true]." *)
Definition record_circular (st : State) (pointer : string) : State :=
  mkState (next st) (memo st) (arena st) (stack st)
          true (st_circularRefs st ++ [pointer])%list.

(** The children of a node, visited in document order by [visit_]. *)
Fixpoint visit_children
         (visit_ : State -> Pointer -> Loc -> Result (State * nat))
         (st : State) (path : Pointer) (at_ : Loc) (tokens : list string)
  : Result (State * list (string * nat)) :=
  match tokens with
  | [] => Ok (st, [])
  | token :: rest =>
      let* (st1, i) := visit_ st (path ++ [token])%list (fst at_, (snd at_ ++ [token])%list) in
      let* (st2, others) := visit_children visit_ st1 path at_ rest in
      Ok (st2, (token, i) :: others)
  end.

Section Dereferencer.
Variable ds : Docs.
Variable root : string.
Variable option_circular : CircularOption.

(** Modelled from the spec: the missing dereferencer.  [visit] is the
    dereference of the value at the place [loc], reached at the path [path]
    of the output; [via] is the ref node through which the place was
    reached, if any.

    A ref node is replaced by the dereference of its target.  A place that
    is on the stack and is reached through a ref is a circular reference:
    the ref's pointer is recorded, and the node is the one in progress
    ([share]), a leaf holding the ref node unchanged ([ignore]), or the
    operation fails with [ReferenceError] ([reject]).  A place that has a
    node already yields that node; a new one is pushed, its children are
    dereferenced in document order, and it is popped. *)
Fixpoint visit (fuel : nat) (via : option JsValue) (st : State) (path : Pointer)
         (loc : Loc) : Result (State * nat) :=
  match fuel with
  | O => Exhausted
  | S fuel' =>
      let* (at_, v) := locate ds loc in
      match ref_of v with
      | Some s =>
          let* t := target (fst at_) s in
          visit fuel' (Some (match via with Some r => r | None => v end)) st path t
      | None =>
          match via, on_stack at_ st, memo_get at_ (memo st) with
          | Some r, true, Some i =>
              let st1 := record_circular st (render_pointer root path) in
              match option_circular with
              | share => Ok (st1, i)
              | ignore =>
                  let (st2, j) := alloc_anonymous st1 in
                  Ok (store st2 j (mkEntry at_ (Leaf r)), j)
              | reject => Err ReferenceError
              end
          | _, _, Some i => Ok (st, i)
          | _, _, None =>
              let (st1, i) := alloc st at_ in
              match v with
              | JObject _ | JArray _ =>
                  let* (st2, children) :=
                    visit_children (visit fuel' None) (push at_ st1) path at_
                                   (child_tokens v) in
                  Ok (store (pop st2) i
                            (mkEntry at_ (Branch (match v with JArray _ => true | _ => false end)
                                                 children)),
                      i)
              | _ => Ok (store st1 i (mkEntry at_ (Leaf v)), i)
              end
          end
      end
  end.

End Dereferencer.

(** *** Node identity *)

(** The place of the child [key] of the value at [at_]. *)
Definition child_loc (at_ : Loc) (key : string) : Loc :=
  (fst at_, (snd at_ ++ [key])%list).

(** [resolves_to ds m loc i]: with the nodes of [m] made so far, the place
    [loc] of the input stands for the node [i] -- the node made for the
    place itself, or, when a ref node sits there, the node that its target
    stands for. *)
Inductive resolves_to (ds : Docs) (m : list (Loc * nat)) : Loc -> nat -> Prop :=
| resolves_here (loc at_ : Loc) (v : JsValue) (i : nat) :
    locate ds loc = Ok (at_, v) ->
    ref_of v = None ->
    memo_get at_ m = Some i ->
    resolves_to ds m loc i
| resolves_through (loc at_ t : Loc) (v : JsValue) (s : string) (i : nat) :
    locate ds loc = Ok (at_, v) ->
    ref_of v = Some s ->
    target (fst at_) s = Ok t ->
    resolves_to ds m t i ->
    resolves_to ds m loc i.

(** The input at [place] is a ref node whose target is [t]. *)
Definition ref_to (ds : Docs) (place t : Loc) : Prop :=
  exists at_ v s,
    locate ds place = Ok (at_, v) /\ ref_of v = Some s /\ target (fst at_) s = Ok t.

(** The position of the output made from the input [place] holds the node
    [c]: [place] is a child place of some branch of the arena, and [c] is
    the child under that key. *)
Definition holds (a : list (nat * Entry)) (place : Loc) (c : nat) : Prop :=
  exists i e is_array children key,
    In (i, e) a /\ node e = Branch is_array children /\ In (key, c) children
    /\ place = child_loc (origin e) key.

(** A memo that keeps every node of an earlier one. *)
Definition memo_le (m m' : list (Loc * nat)) : Prop :=
  forall loc i, memo_get loc m = Some i -> memo_get loc m' = Some i.

(** Every position of the arena holds the node that its place stands for. *)
Definition arena_ok (ds : Docs) (m : list (Loc * nat)) (a : list (nat * Entry)) : Prop :=
  forall place c, holds a place c -> resolves_to ds m place c.

(** *** The operations (section 6) *)

Definition empty_state : State := mkState 0 [] [] [] false [].

(** The dereferenced tree: the arena and the id of its root. *)
Record Tree : Type := mkTree {
  tree_root : nat;
  nodes : list (nat * Entry)
}.

Fixpoint get_node (i : nat) (a : list (nat * Entry)) : option Entry :=
  match a with
  | [] => None
  | (k, e) :: rest => if Nat.eqb k i then Some e else get_node i rest
  end.

Fixpoint get_child (key : string) (children : list (string * nat)) : option nat :=
  match children with
  | [] => None
  | (k, i) :: rest => if k =? key then Some i else get_child key rest
  end.

(** The id of the node at a path of the tree: [schema.properties.name] is
    [node_at tree ["properties"; "name"]]. *)
Fixpoint node_at_from (a : list (nat * Entry)) (i : nat) (path : Pointer) : option nat :=
  match path with
  | [] => Some i
  | key :: rest =>
      match get_node i a with
      | Some (mkEntry _ (Branch _ children)) =>
          match get_child key children with
          | Some j => node_at_from a j rest
          | None => None
          end
      | _ => None
      end
  end.

Definition node_at (t : Tree) (path : Pointer) : option nat :=
  node_at_from (nodes t) (tree_root t) path.

(** Modelled from the spec: the missing [$RefParser.parse(src)], which
    "returns the root document's parsed value"; the catalog holds "exactly
    one resolved document (the root itself)" and its flags are untouched. *)
Definition parse (files : Files) (src : string) : Result (JsValue * Catalog) :=
  let* v := read_and_parse files src in
  Ok (v, mkCatalog [(src, v)] false []).

(** Modelled from the spec: the missing [$RefParser.resolve(src)], the
    catalog of "every transitively reachable external document". *)
Definition resolve (files : Files) (src : string) : Result Catalog :=
  let* ds := crawl (S (List.length files) * S (docs_size files)) files [] [src] in
  Ok (mkCatalog ds false []).

(** Modelled from the spec: the missing [$RefParser.dereference(src)],
    which "returns the dereferenced tree; sets catalog [circular] /
    [circularRefs]". *)
Definition dereference (files : Files) (src : string) (option_circular : CircularOption)
  : Result (Tree * Catalog) :=
  let* c := resolve files src in
  let* (st, i) := visit (docs c) src option_circular (budget (docs c)) None
                        empty_state [] (src, []) in
  Ok (mkTree i (arena st), mkCatalog (docs c) (st_circular st) (st_circularRefs st)).

End Refs.

(* ----------------------------------------------------------------- *)
(** ** Schemas for the dereferencer *)

Module RefScenarios.
Import Refs.

Definition ref (s : string) : JsValue := JObject [("$ref", JString s)].

(** S1: two documents that refer to each other. *)
Definition a_yaml : string := "file:///specs/circular-external-direct/a.yaml".
Definition b_yaml : string := "file:///specs/circular-external-direct/b.yaml".

Definition direct_cycle : Files :=
  [(a_yaml, JObject [("foo", ref "./b.yaml")]);
   (b_yaml, JObject [("foo", ref "./a.yaml#/foo")])].

(** S3: a schema of the shape of the absolute-root test, in four files. *)
Definition root_yaml : string := "file:///specs/absolute-root/absolute-root.yaml".
Definition definitions_json : string := "file:///specs/absolute-root/definitions/definitions.json".
Definition name_yaml : string := "file:///specs/absolute-root/definitions/name.yaml".
Definition required_string_yaml : string :=
  "file:///specs/absolute-root/definitions/required-string.yaml".

Definition absolute_root : Files :=
  [(root_yaml,
    JObject [("title", JString "Person");
             ("type", JString "object");
             ("required", JArray [JString "name"]);
             ("properties", JObject [("name", ref "#/definitions/name")]);
             ("definitions", ref "definitions/definitions.json")]);
   (definitions_json,
    JObject [("required string", ref "required-string.yaml");
             ("name", ref "../definitions/name.yaml")]);
   (name_yaml,
    JObject [("title", JString "name");
             ("type", JString "object");
             ("required", JArray [JString "first"; JString "last"]);
             ("properties",
              JObject [("first", ref "../definitions/definitions.json#/required%20string");
                       ("last", ref "./required-string.yaml")])]);
   (required_string_yaml,
    JObject [("title", JString "required string");
             ("type", JString "string");
             ("minLength", JNumber 1%float)])].

(** One document, the same shape. *)
Definition internal : Files :=
  [(root_yaml,
    JObject [("properties", JObject [("name", ref "#/definitions/name")]);
             ("definitions",
              JObject [("name", JObject [("type", JString "string")])])])].

(** A ref to an ancestor, and a second ref to the same target. *)
Definition loop : Files :=
  [(root_yaml,
    JObject [("a", ref "#/b");
             ("b", JObject [("c", ref "#/b")])])].

End RefScenarios.

(* ----------------------------------------------------------------- *)
(** ** Notions for the further properties of the two modules *)

Module HttpNotions.
Import HttpResolver.

(** The [protocol] constant of [get]: node's [https] for ['https:'], its
    [http] for anything else. *)
Definition request_module (u : Url) : NodeModule :=
  match protocol u with
  | Some p => if p =? "https:" then node_https else node_http
  | None => node_http
  end.

(** The object that [get] hands to [protocol.get]. *)
Definition request_options (u : Url) (httpOptions : HttpOptions) : RequestOptions :=
  mkRequest (hostname u) (port u) (path u) (auth u) (protocol u)
            (match headers httpOptions with Some h => h | None => [] end)
            (withCredentials httpOptions).

(** What the settled [get] is for a reply of the network. *)
Definition settled_reply (reply_ : Reply) : Settled Res :=
  match reply_ with
  | RequestError e => Rejected e
  | Response _ _ _ (Some e) => Rejected e
  | Response st hs chunks None => Resolved (mkRes st hs (List.concat chunks))
  end.

Definition connection_reset : JsError :=
  Plain (mkException "Error" "read ECONNRESET").

(** A server that nobody answers for, one whose response breaks off, and
    one that sends its document in three chunks. *)
Definition nobody_home : list (string * Reply) := [].

Definition broken_stream : list (string * Reply) :=
  [(HttpScenarios.A, HttpScenarios.redirect_to HttpScenarios.B);
   (HttpScenarios.B, Response 200 [] [[Byte.x7b]] (Some connection_reset))].

Definition three_chunks : list (string * Reply) :=
  [(HttpScenarios.A, Response 200 [] [[Byte.x7b]; []; [Byte.x7d]] None)].

End HttpNotions.

Module YamlNotions.
Import YamlParser.

Section Text.
Context {P : Platform}.

(** The text that [parse] loads, when [data] is a buffer or a string. *)
Definition text_of (v : JsValue) : option string :=
  match v with
  | JString s => Some s
  | JBuffer b => Some (Buffer_toString b None)
  | _ => None
  end.

End Text.

Definition renamed_broken_yaml : File :=
  mkFile "http://example.com/other.txt" ".txt" (JString "a: b: c").

End YamlNotions.

(* ================================================================= *)
(** * Part II. Properties *)
(* ================================================================= *)

(** ** Strings *)

Module StringFacts.

Lemma append_nil_r (s : string) : s ++ "" = s.
Proof. induction s as [|c s IH]; simpl; [reflexivity|now rewrite IH]. Qed.

Lemma append_assoc (s t v : string) : (s ++ t) ++ v = s ++ (t ++ v).
Proof. induction s as [|c s IH]; simpl; [reflexivity|now rewrite IH]. Qed.

Lemma contains_refl (s : string) : contains s s.
Proof. exists "", "". simpl. now rewrite append_nil_r. Qed.

Lemma contains_app_l (p t s : string) : contains t s -> contains (p ++ t) s.
Proof.
  intros (pre & post & ->). exists (p ++ pre), post. now rewrite append_assoc.
Qed.

Lemma contains_app_r (t q s : string) : contains t s -> contains (t ++ q) s.
Proof.
  intros (pre & post & ->). exists pre, (post ++ q). now rewrite !append_assoc.
Qed.

(** Every part of a joined list occurs in the result. *)
Lemma join_contains (sep : string) (parts : list string) (h : string) :
  In h parts -> contains (join sep parts) h.
Proof.
  unfold join. induction parts as [|x xs IH]; simpl; [tauto|].
  intros [->|Hin].
  - destruct xs; [apply contains_refl|apply contains_app_r, contains_refl].
  - destruct xs as [|y ys]; [destruct Hin|].
    apply contains_app_l, contains_app_l, IH, Hin.
Qed.

End StringFacts.
Import StringFacts.

Module HttpFacts.
Import HttpResolver.

Section Download.
Context {P : Platform}.
Variable httpOptions : HttpOptions.

Ltac zbool :=
  repeat match goal with
  | H : context [?a >=? ?b] |- _ => rewrite (Z.geb_leb a b) in H
  | H : context [?a >? ?b] |- _ => rewrite (Z.gtb_ltb a b) in H
  | |- context [?a >=? ?b] => rewrite (Z.geb_leb a b)
  | |- context [?a >? ?b] => rewrite (Z.gtb_ltb a b)
  end.

(** When [onResponse] follows a redirect, the response is a 3xx one, the
    list of followed URLs is within the limit, and the target is the
    non-empty [location] resolved against [u]. *)
Lemma onResponse_Follow (u : Url) (r : list string) (res : Res) (redirectTo : string) :
  onResponse u httpOptions r res = Follow redirectTo ->
  300 <= statusCode res < 400 /\
  Z.of_nat (List.length r) <= redirects httpOptions /\
  exists location,
    lookup "location" (res_headers res) = Some location /\
    location <> "" /\ redirectTo = url_resolve u location.
Proof.
  unfold onResponse. zbool.
  destruct (Z.leb_spec 400 (statusCode res)); [discriminate|].
  destruct (Z.leb_spec 300 (statusCode res)); [|discriminate].
  destruct (Z.ltb_spec (redirects httpOptions) (Z.of_nat (List.length r))); [discriminate|].
  destruct (lookup "location" (res_headers res)) as [location|] eqn:E; simpl; [|discriminate].
  destruct (String.eqb_spec location ""); simpl; [discriminate|].
  intros [= <-]. repeat split; try lia. exists location. auto.
Qed.

(** An absent [redirects] argument is the empty array. *)
Lemma download_fuel_None (fuel : nat) (u : UrlOrString) (w : World) :
  download_fuel fuel httpOptions u None w = download_fuel fuel httpOptions u (Some []) w.
Proof. destruct fuel; reflexivity. Qed.

Lemma exchanges_fuel_None (fuel : nat) (u : UrlOrString) (w : World) :
  exchanges_fuel fuel httpOptions u None w = exchanges_fuel fuel httpOptions u (Some []) w.
Proof. destruct fuel; reflexivity. Qed.

(** The fuel that [download] starts with is the fuel a followed redirect
    needs, plus one. *)
Lemma enough_Follow (r : list string) (h : string) :
  Z.of_nat (List.length (r ++ [h])) <= redirects httpOptions ->
  enough httpOptions (Some r) = S (enough httpOptions (Some (r ++ [h])%list)).
Proof.
  unfold enough. rewrite length_app. simpl. intros H.
  f_equal. rewrite <- Z2Nat.inj_succ by lia. f_equal. lia.
Qed.

(** [download] satisfies the equation of the source: its recursive call is
    [download] again. *)
Lemma download_eq (u : UrlOrString) (r : list string) (w : World) :
  download u httpOptions (Some r) w
  = download_body (fun u' r' w' => download u' httpOptions r' w') u httpOptions (Some r) w.
Proof.
  unfold download at 1. unfold enough at 1. simpl download_fuel.
  unfold download_body.
  destruct (get (url_parse u) httpOptions w) as [[res|err] w']; auto.
  destruct (onResponse _ _ _ res) eqn:E; auto.
  apply onResponse_Follow in E. destruct E as (_ & Hlen & _).
  unfold download. pose proof (enough_Follow r _ Hlen) as HE.
  unfold enough in HE at 1. injection HE as HE. simpl in HE. rewrite HE. reflexivity.
Qed.

Lemma exchanges_eq (u : UrlOrString) (r : list string) (w : World) :
  exchanges u httpOptions (Some r) w
  = exchanges_body (fun u' r' w' => exchanges u' httpOptions r' w') u httpOptions (Some r) w.
Proof.
  unfold exchanges at 1. unfold enough at 1. simpl exchanges_fuel.
  unfold exchanges_body.
  destruct (get (url_parse u) httpOptions w) as [[res|err] w']; auto.
  destruct (onResponse _ _ _ res) eqn:E; auto.
  apply onResponse_Follow in E. destruct E as (_ & Hlen & _).
  unfold exchanges. pose proof (enough_Follow r _ Hlen) as HE.
  unfold enough in HE at 1. injection HE as HE. simpl in HE. rewrite HE. reflexivity.
Qed.

(** Induction along the redirects that a download follows. *)
Lemma download_ind (Q : UrlOrString -> list string -> World -> Prop) :
  (forall u r w,
      (forall res w' redirectTo,
          get (url_parse u) httpOptions w = (Resolved res, w') ->
          onResponse (url_parse u) httpOptions (r ++ [href (url_parse u)]) res
          = Follow redirectTo ->
          Q (UrlStr redirectTo) (r ++ [href (url_parse u)])%list w') ->
      Q u r w) ->
  forall u r w, Q u r w.
Proof.
  intros step u r w.
  remember (enough httpOptions (Some r)) as n eqn:En.
  revert u r w En. induction n as [|n IH]; intros u r w En; [discriminate|].
  apply step. intros res w' redirectTo _ E.
  apply onResponse_Follow in E. destruct E as (_ & Hlen & _).
  apply IH. rewrite (enough_Follow r _ Hlen) in En. congruence.
Qed.

(** [download] always settles. *)
Lemma download_settles (u : UrlOrString) (r : list string) (w : World) :
  exists out, download u httpOptions (Some r) w = Some out.
Proof.
  revert u r w. apply (download_ind (fun u r w => exists out, download u httpOptions (Some r) w = Some out)).
  intros u r w IH. rewrite download_eq. unfold download_body.
  destruct (get (url_parse u) httpOptions w) as [[res|err] w']; eauto.
  destruct (onResponse _ _ _ res) eqn:E; eauto.
Qed.

(** The five ways [onResponse] can go. *)
Lemma onResponse_cases (u : Url) (r : list string) (res : Res) :
  let st := statusCode res in
  let location := lookup "location" (res_headers res) in
  (400 <= st /\
   onResponse u httpOptions r res
   = Throw (OnoProps st ("HTTP ERROR " ++ string_of_Z st)))
  \/ (300 <= st < 400 /\ redirects httpOptions < Z.of_nat (List.length r) /\
      onResponse u httpOptions r res
      = Reject (ResolverError (OnoProps st (too_many_redirects r)) None))
  \/ (300 <= st < 400 /\ Z.of_nat (List.length r) <= redirects httpOptions /\
      truthy location = false /\
      onResponse u httpOptions r res
      = Throw (OnoProps st ("HTTP " ++ string_of_Z st ++ " redirect with no location header")))
  \/ (300 <= st < 400 /\ Z.of_nat (List.length r) <= redirects httpOptions /\
      exists l, location = Some l /\ l <> "" /\
                onResponse u httpOptions r res = Follow (url_resolve u l))
  \/ (st < 300 /\ onResponse u httpOptions r res = Resolve (body res)).
Proof.
  intros st location. subst st location. unfold onResponse. zbool.
  destruct (Z.leb_spec 400 (statusCode res)); [left; split; [lia|reflexivity]|right].
  destruct (Z.leb_spec 300 (statusCode res)); [|right; right; right; split; [lia|reflexivity]].
  destruct (Z.ltb_spec (redirects httpOptions) (Z.of_nat (List.length r)));
    [left; repeat split; (lia || reflexivity)|right].
  destruct (lookup "location" (res_headers res)) as [l|] eqn:E; simpl.
  - destruct (String.eqb_spec l ""); simpl.
    + left. subst l. repeat split; (lia || reflexivity).
    + right. left. repeat split; try lia. exists l. auto.
  - left. repeat split; (lia || reflexivity).
Qed.

Lemma is_redirect_Resolved (u : Url) (r : list string) (res : Res) :
  is_redirect (mkExchange u r (Resolved res)) = true <-> 300 <= statusCode res < 400.
Proof.
  unfold is_redirect. simpl. rewrite andb_true_iff, Z.leb_le, Z.ltb_lt. tauto.
Qed.

Lemma redirect_count_cons (x : Exchange) (xs : list Exchange) :
  redirect_count (x :: xs)
  = ((if is_redirect x then 1 else 0) + redirect_count xs)%nat.
Proof. unfold redirect_count. simpl. destruct (is_redirect x); reflexivity. Qed.

(** More redirect responses than [redirects] allows: the download is
    rejected by the too-many-redirects branch, with every URL it requested
    in the message. *)
Lemma download_too_many :
  forall u r w,
    let xs := exchanges u httpOptions (Some r) w in
    (0 < redirect_count xs)%nat ->
    redirects httpOptions < Z.of_nat (List.length r + redirect_count xs) ->
    exists st w',
      download u httpOptions (Some r) w
      = Some (Rejected (ResolverError
                          (OnoProps st (too_many_redirects (r ++ requested_hrefs xs)))
                          None), w').
Proof.
  apply (download_ind (fun u r w =>
    let xs := exchanges u httpOptions (Some r) w in
    (0 < redirect_count xs)%nat ->
    redirects httpOptions < Z.of_nat (List.length r + redirect_count xs) ->
    exists st w',
      download u httpOptions (Some r) w
      = Some (Rejected (ResolverError
                          (OnoProps st (too_many_redirects (r ++ requested_hrefs xs)))
                          None), w'))).
  intros u r w IH. cbv zeta. rewrite exchanges_eq, download_eq.
  unfold exchanges_body, download_body.
  destruct (get (url_parse u) httpOptions w) as [[res|err] w'] eqn:G.
  2:{ rewrite redirect_count_cons. simpl. unfold redirect_count. simpl. lia. }
  rewrite redirect_count_cons.
  pose proof (is_redirect_Resolved (url_parse u) (r ++ [href (url_parse u)]) res) as HR.
  destruct (onResponse_cases (url_parse u) (r ++ [href (url_parse u)]) res)
    as [(Hs & E)|[(Hs & Hl & E)|[(Hs & Hl & _ & E)|[(Hs & Hl & l & _ & _ & E)|(Hs & E)]]]];
    cbv zeta in E; rewrite E; rewrite length_app in Hl || idtac; simpl in Hl || idtac.
  - destruct (is_redirect _); [apply proj1 in HR; specialize (HR eq_refl); lia|].
    unfold redirect_count. simpl. lia.
  - intros _ _. exists (statusCode res), w'. unfold requested_hrefs. simpl. reflexivity.
  - destruct (is_redirect _); unfold redirect_count; simpl; lia.
  - specialize (IH res w' _ eq_refl E). cbv zeta in IH.
    destruct (is_redirect _); [|apply proj2 in HR; specialize (HR Hs); discriminate].
    intros _ H2.
    destruct IH as (st & w'' & IH).
    + destruct (redirect_count _); [simpl in H2; lia|lia].
    + rewrite length_app. simpl. lia.
    + exists st, w''. rewrite IH. unfold requested_hrefs. simpl.
      rewrite <- app_assoc. reflexivity.
  - destruct (is_redirect _); [apply proj1 in HR; specialize (HR eq_refl); lia|].
    unfold redirect_count. simpl. lia.
Qed.

(** The too-many-redirects message names every URL of the array. *)
Lemma too_many_redirects_contains (r : list string) (h : string) :
  In h r -> contains (too_many_redirects r) h.
Proof.
  intros Hin. unfold too_many_redirects.
  repeat apply contains_app_l.
  apply join_contains, Hin.
Qed.

(** What each response on the way means for the download as a whole. *)
Lemma download_by_status :
  forall u r w x res,
    In x (exchanges u httpOptions (Some r) w) ->
    reply x = Resolved res ->
    (400 <= statusCode res ->
     exists ex w',
       download u httpOptions (Some r) w
       = Some (Rejected (ResolverError ex (Some (href (requested x)))), w'))
    /\ (300 <= statusCode res < 400 ->
        lookup "location" (res_headers res) = None ->
        exists ex source w',
          download u httpOptions (Some r) w
          = Some (Rejected (ResolverError ex source), w'))
    /\ (statusCode res < 300 ->
        exists w', download u httpOptions (Some r) w = Some (Resolved (body res), w')).
Proof.
  apply (download_ind (fun u r w => forall x res,
    In x (exchanges u httpOptions (Some r) w) ->
    reply x = Resolved res ->
    (400 <= statusCode res ->
     exists ex w',
       download u httpOptions (Some r) w
       = Some (Rejected (ResolverError ex (Some (href (requested x)))), w'))
    /\ (300 <= statusCode res < 400 ->
        lookup "location" (res_headers res) = None ->
        exists ex source w',
          download u httpOptions (Some r) w
          = Some (Rejected (ResolverError ex source), w'))
    /\ (statusCode res < 300 ->
        exists w', download u httpOptions (Some r) w = Some (Resolved (body res), w')))).
  intros u r w IH x res. rewrite exchanges_eq, download_eq.
  unfold exchanges_body, download_body.
  destruct (get (url_parse u) httpOptions w) as [[res0|err] w'] eqn:G.
  2:{ intros [<-|[]]. simpl. discriminate. }
  intros [<-|Hin]; simpl.
  - intros [= ->].
    destruct (onResponse_cases (url_parse u) (r ++ [href (url_parse u)]) res)
      as [(Hs & E)|[(Hs & Hl & E)|[(Hs & Hl & _ & E)|[(Hs & Hl & l & El & _ & E)|(Hs & E)]]]];
      cbv zeta in E; rewrite E; unfold onCatch;
      (split; [|split]); intros; try lia; try congruence; eauto.
  - destruct (onResponse _ _ _ res0) eqn:E; try destruct Hin.
    intros Hx. apply (IH res0 w' _ eq_refl E x res Hin Hx).
Qed.

(** Every rejection of a download is a [ResolverError]; it carries the URL
    of the last request as its source, except on the too-many-redirects
    branch, where the constructor gets no source. *)
Lemma download_rejections :
  forall u r w e w',
    download u httpOptions (Some r) w = Some (Rejected e, w') ->
    exists ex last,
      List.last (exchanges u httpOptions (Some r) w)
                (mkExchange (url_parse u) [] (Rejected e)) = last /\
      (e = ResolverError ex (Some (href (requested last)))
       \/ (exists st, e = ResolverError (OnoProps st (too_many_redirects (followed last))) None
                      /\ redirects httpOptions < Z.of_nat (List.length (followed last)))).
Proof.
  apply (download_ind (fun u r w => forall e w',
    download u httpOptions (Some r) w = Some (Rejected e, w') ->
    exists ex last,
      List.last (exchanges u httpOptions (Some r) w)
                (mkExchange (url_parse u) [] (Rejected e)) = last /\
      (e = ResolverError ex (Some (href (requested last)))
       \/ (exists st, e = ResolverError (OnoProps st (too_many_redirects (followed last))) None
                      /\ redirects httpOptions < Z.of_nat (List.length (followed last)))))).
  intros u r w IH e w1. rewrite exchanges_eq, download_eq.
  unfold exchanges_body, download_body, onCatch.
  destruct (get (url_parse u) httpOptions w) as [[res0|err] w'] eqn:G.
  2:{ intros [= <- <-]. simpl. eexists _, _. split; [reflexivity|left; reflexivity]. }
  destruct (onResponse_cases (url_parse u) (r ++ [href (url_parse u)]) res0)
    as [(Hs & E)|[(Hs & Hl & E)|[(Hs & Hl & _ & E)|[(Hs & Hl & l & El & _ & E)|(Hs & E)]]]];
    cbv zeta in E; rewrite E.
  - intros [= <- <-]. simpl. eexists _, _. split; [reflexivity|left; reflexivity].
  - intros [= <- <-]. simpl. eexists (Plain (mkException "" "")), _. split; [reflexivity|].
    right. simpl. eauto.
  - intros [= <- <-]. simpl. eexists _, _. split; [reflexivity|left; reflexivity].
  - intros H. destruct (IH res0 w' _ eq_refl E e w1 H) as (ex & last & HL & Hlast).
    exists ex, last. split; [|exact Hlast].
    rewrite <- HL.
    destruct (exchanges (UrlStr (url_resolve (url_parse u) l)) httpOptions
                        (Some (r ++ [href (url_parse u)])%list) w') as [|x0 xs0] eqn:EX.
    + exfalso. revert EX. rewrite exchanges_eq. unfold exchanges_body.
      destruct (get _ _ w') as [[?|?] ?]; discriminate.
    + simpl. clear. revert x0. induction xs0; simpl; auto.
  - discriminate.
Qed.

(** An absent [redirects] argument is the empty array. *)
Lemma download_None (u : UrlOrString) (w : World) :
  download u httpOptions None w = download u httpOptions (Some []) w.
Proof. unfold download. apply download_fuel_None. Qed.

Lemma exchanges_None (u : UrlOrString) (w : World) :
  exchanges u httpOptions None w = exchanges u httpOptions (Some []) w.
Proof. unfold exchanges. apply exchanges_fuel_None. Qed.

End Download.

Import HttpScenarios.

(** C1.  A [read] whose download receives 3xx responses, and more of them
    than [httpOptions.redirects] allows, is rejected with a [ResolverError],
    built on the too-many-redirects branch, whose message contains every
    URL that was requested (the array [redirects], "the redirect URLs that
    have already been followed").  In particular, with [redirects = 2] and
    the chain A -> B -> C -> D, [read] rejects after three requests and the
    message lists A, B and C; D, the [Location] of the third response, is
    never requested. *)
Theorem redirect_overflow_rejected :
  (forall (P : Platform) (this : HttpOptions) (file : File) (w : World),
      let xs := read_exchanges this file w in
      (0 < redirect_count xs)%nat ->
      redirects this < Z.of_nat (redirect_count xs) ->
      exists st w',
        read this file w
        = Some (Rejected (ResolverError
                            (OnoProps st (too_many_redirects (requested_hrefs xs)))
                            None), w')
        /\ Forall (fun x => contains (too_many_redirects (requested_hrefs xs))
                                     (href (requested x))) xs)
  /\ (@read (table_platform chain_ABCD) (with_redirects 2) fileA 0%nat
      = Some (Rejected (ResolverError
                          (OnoProps 302
                             ("Error downloading http://example.com/a.json. " ++ nl
                              ++ "Too many redirects: " ++ nl
                              ++ "  http://example.com/a.json " ++ nl
                              ++ "  http://example.com/b.json " ++ nl
                              ++ "  http://example.com/c.json"))
                          None), 3%nat)
      /\ requested_hrefs
           (@read_exchanges (table_platform chain_ABCD) (with_redirects 2) fileA 0%nat)
         = [A; B; C]).
Proof.
  split.
  - intros P this file w xs Hpos Hmany. subst xs. unfold read, read_exchanges in *.
    rewrite download_None. rewrite exchanges_None in *.
    destruct (download_too_many this (UrlObj (read_url file)) [] w Hpos Hmany)
      as (st & w' & E).
    exists st, w'. split; [exact E|].
    apply Forall_forall. intros x Hx. apply too_many_redirects_contains.
    unfold requested_hrefs. apply in_map_iff. exists x. auto.
  - split; vm_compute; reflexivity.
Qed.

Lemma redirect_overflow_rejected_witness :
  exists st w',
    @read (table_platform chain_ABCD) (with_redirects 2) fileA 0%nat
    = Some (Rejected (ResolverError
                        (OnoProps st (too_many_redirects [A; B; C])) None), w')
    /\ Forall (fun x => contains (too_many_redirects [A; B; C]) (href (requested x)))
              (@read_exchanges (table_platform chain_ABCD) (with_redirects 2) fileA 0%nat).
Proof.
  apply (proj1 redirect_overflow_rejected
               (table_platform chain_ABCD) (with_redirects 2) fileA 0%nat).
  - vm_compute. lia.
  - vm_compute. reflexivity.
Defined.

(** C2.  For every response that the resolver receives in the course of
    a [read]: a status of 400 or more makes the read fail with a
    [ResolverError] (whose source is the URL just requested); a status in
    300..399 with no [Location] header makes it fail with a [ResolverError];
    a status below 300 makes it resolve with the body of that response. *)
Theorem status_decides_read (P : Platform) (this : HttpOptions) (file : File)
        (w : World) (x : Exchange) (res : Res) :
  In x (read_exchanges this file w) ->
  reply x = Resolved res ->
  (400 <= statusCode res ->
   exists ex w',
     read this file w
     = Some (Rejected (ResolverError ex (Some (href (requested x)))), w'))
  /\ (300 <= statusCode res < 400 ->
      lookup "location" (res_headers res) = None ->
      exists ex source w',
        read this file w = Some (Rejected (ResolverError ex source), w'))
  /\ (statusCode res < 300 ->
      exists w', read this file w = Some (Resolved (body res), w')).
Proof.
  unfold read, read_exchanges. rewrite download_None, exchanges_None.
  apply download_by_status.
Qed.

Lemma status_decides_read_witness :
  (exists ex w',
      @read (table_platform not_found) defaults fileA 0%nat
      = Some (Rejected (ResolverError ex (Some A)), w'))
  /\ (exists ex source w',
         @read (table_platform moved_nowhere) defaults fileA 0%nat
         = Some (Rejected (ResolverError ex source), w'))
  /\ (exists w',
         @read (table_platform chain_AB) defaults fileA 0%nat
         = Some (Resolved braces, w')).
Proof.
  split; [|split].
  - apply (proj1 (status_decides_read
                    (table_platform not_found) defaults fileA 0%nat
                    (mkExchange (parse_whole (UrlStr A)) [A] (Resolved (mkRes 404 [] [])))
                    (mkRes 404 [] [])
                    (or_introl eq_refl) eq_refl)).
    simpl. lia.
  - apply (proj1 (proj2 (status_decides_read
                    (table_platform moved_nowhere) defaults fileA 0%nat
                    (mkExchange (parse_whole (UrlStr A)) [A] (Resolved (mkRes 301 [] [])))
                    (mkRes 301 [] [])
                    (or_introl eq_refl) eq_refl))).
    + simpl. lia.
    + reflexivity.
  - apply (proj2 (proj2 (status_decides_read
                    (table_platform chain_AB) defaults fileA 0%nat
                    (mkExchange (parse_whole (UrlStr B)) [A; B]
                                (Resolved (mkRes 200 [("content-type", "application/json")]
                                                 braces)))
                    (mkRes 200 [("content-type", "application/json")] braces)
                    (or_intror (or_introl eq_refl)) eq_refl))).
    simpl. lia.
Defined.

(** C3, at the input where it fails.  With [redirects = 0] and a first
    response that is a 302, [read] rejects with the error of the
    too-many-redirects branch, which is built by
    [new ResolverError(ono(...))] with no second argument: the error has no
    source.  The sibling branches pass [u.href]: a 404 at the same URL
    yields an error whose source is that URL. *)
Theorem redirect_overflow_error_has_no_source :
  (exists e,
      @read (table_platform chain_AB) (with_redirects 0) fileA 0%nat
      = Some (Rejected e, 1%nat)
      /\ e = ResolverError
               (OnoProps 302
                  ("Error downloading http://example.com/a.json. " ++ nl
                   ++ "Too many redirects: " ++ nl
                   ++ "  http://example.com/a.json"))
               None
      /\ isResolverError e = true
      /\ source_of e = None)
  /\ (exists e,
         @read (table_platform not_found) (with_redirects 0) fileA 0%nat
         = Some (Rejected e, 1%nat)
         /\ e = ResolverError
                  (OnoWrap (OnoProps 404 "HTTP ERROR 404")
                           "Error downloading http://example.com/a.json")
                  (Some A)
         /\ source_of e = Some A).
Proof.
  split; eexists; (split; [vm_compute; reflexivity|]); repeat split.
Qed.

(** C9, as the code has it.  A 3xx response whose [location] header is a
    non-empty string, received while the array of followed URLs (the
    current one included) is no longer than [redirects], is followed: the
    download is the download of [url.resolve(u, location)] with the same
    options and the same array, and that URL is the next one requested. *)
Theorem redirect_followed (P : Platform) (httpOptions : HttpOptions) (u : UrlOrString)
        (r : list string) (w w' : World) (res : Res) (location : string) :
  get (url_parse u) httpOptions w = (Resolved res, w') ->
  300 <= statusCode res < 400 ->
  lookup "location" (res_headers res) = Some location ->
  location <> "" ->
  Z.of_nat (List.length (r ++ [href (url_parse u)])) <= redirects httpOptions ->
  let redirectTo := url_resolve (url_parse u) location in
  let r' := (r ++ [href (url_parse u)])%list in
  download u httpOptions (Some r) w
  = download (UrlStr redirectTo) httpOptions (Some r') w'
  /\ exchanges u httpOptions (Some r) w
     = mkExchange (url_parse u) r' (Resolved res)
       :: exchanges (UrlStr redirectTo) httpOptions (Some r') w'.
Proof.
  intros G Hs Hloc Hne Hlen. cbv zeta.
  rewrite download_eq, exchanges_eq. unfold download_body, exchanges_body. rewrite G.
  destruct (onResponse_cases httpOptions (url_parse u) (r ++ [href (url_parse u)]) res)
    as [(Hs' & E)|[(Hs' & Hl & E)|[(Hs' & Hl & Ht & E)|[(Hs' & Hl & l & El & _ & E)|(Hs' & E)]]]];
    cbv zeta in *; try lia.
  - rewrite Hloc in Ht. simpl in Ht. destruct (String.eqb_spec location ""); [tauto|discriminate].
  - rewrite E. rewrite Hloc in El. injection El as <-. split; reflexivity.
Qed.

Lemma redirect_followed_witness :
  @download (table_platform chain_AB) (UrlStr A) defaults (Some []) 0%nat
  = @download (table_platform chain_AB) (UrlStr B) defaults (Some [A]) 1%nat
  /\ @exchanges (table_platform chain_AB) (UrlStr A) defaults (Some []) 0%nat
     = mkExchange (parse_whole (UrlStr A)) [A] (Resolved (mkRes 302 [("location", B)] []))
       :: @exchanges (table_platform chain_AB) (UrlStr B) defaults (Some [A]) 1%nat.
Proof.
  apply (redirect_followed (table_platform chain_AB) defaults (UrlStr A) [] 0%nat 1%nat
                           (mkRes 302 [("location", B)] []) B).
  - reflexivity.
  - simpl. lia.
  - reflexivity.
  - discriminate.
  - simpl. lia.
Defined.

(** C9 as stated fails where the [Location] header is there with an empty
    value: [!res.headers.location] holds, the redirect is not followed, and
    the read is rejected after the one request. *)
Lemma redirect_empty_location_not_followed :
  @read (table_platform empty_location) defaults fileA 0%nat
  = Some (Rejected (ResolverError
                      (OnoWrap (OnoProps 302 "HTTP 302 redirect with no location header")
                               "Error downloading http://example.com/a.json")
                      (Some A)), 1%nat)
  /\ @read_exchanges (table_platform empty_location) defaults fileA 0%nat
     = [mkExchange (parse_whole (UrlStr A)) [A]
                   (Resolved (mkRes 302 [("location", "")] []))].
Proof. split; vm_compute; reflexivity. Qed.

End HttpFacts.

(* ----------------------------------------------------------------- *)
(** ** The YAML parser *)

Module YamlFacts.
Import YamlParser YamlScenarios.

Section Parse.
Context {P : Platform}.

(** [parse] never reads [this]: neither [allowEmpty] nor any other field of
    the parser object changes its result. *)
Lemma parse_ignores_this (this this' : Parser) (file : File) :
  parse this file = parse this' file.
Proof. reflexivity. Qed.

(** A buffer is parsed as the string it decodes to, as UTF-8. *)
Lemma parse_Buffer (this : Parser) (u ext : string) (b : Buffer) :
  parse this (mkFile u ext (JBuffer b)) = parse this (mkFile u ext (JString (decode utf8 b))).
Proof. reflexivity. Qed.

(** A string goes to [yaml.load] with the JSON schema. *)
Lemma parse_String (this : Parser) (u ext s : string) :
  parse this (mkFile u ext (JString s))
  = match yaml_load s JSON_SCHEMA with
    | Value v => Resolved v
    | Throws e => Rejected (ParserError (exn_message e) u)
    end.
Proof. reflexivity. Qed.

(** Anything else comes back as it is. *)
Lemma parse_other (this : Parser) (file : File) :
  Buffer_isBuffer (data file) = false ->
  is_string (data file) = false ->
  parse this file = Resolved (data file).
Proof.
  unfold parse. destruct (data file); simpl; intros; try discriminate; reflexivity.
Qed.

End Parse.

(** C4, as the code has it.  On zero-byte input, an empty buffer or an
    empty string, [parse] hands the empty text to [yaml.load] with the JSON
    schema and settles with what the load yields: the loaded value, or a
    [ParserError] with the exception's message and the file's URL.  The
    result is the same with [allowEmpty] true and false: [parse] does not
    read it. *)
Theorem empty_yaml_goes_to_loader (P : Platform) (this : Parser) (u ext : string) :
  let loaded :=
    match yaml_load "" JSON_SCHEMA with
    | Value v => Resolved v
    | Throws e => Rejected (ParserError (exn_message e) u)
    end in
  parse this (mkFile u ext (JBuffer [])) = loaded
  /\ parse this (mkFile u ext (JString "")) = loaded
  /\ parse (with_allowEmpty true) (mkFile u ext (JBuffer []))
     = parse (with_allowEmpty false) (mkFile u ext (JBuffer [])).
Proof.
  cbv zeta. rewrite parse_Buffer, decode_empty, parse_String. auto.
Qed.

(** C4 as stated fails: with a loader that takes the empty text for [null],
    [parse] resolves with [null] under [allowEmpty = false] as well; and
    whatever the loader, [parse] cannot both resolve under one setting and
    reject under the other. *)
Lemma empty_yaml_not_rejected :
  @parse (loader_platform empty_is_null) (with_allowEmpty true) empty_yaml = Resolved JNull
  /\ @parse (loader_platform empty_is_null) (with_allowEmpty false) empty_yaml = Resolved JNull
  /\ ((exists P : Platform, allowEmpty_enforced_by_parse P) <-> False).
Proof.
  split; [reflexivity|]. split; [reflexivity|]. split; [|tauto].
  intros (P & H). destruct (H "" "") as (H1 & H2).
  rewrite (parse_ignores_this _ (with_allowEmpty false)) in H1. congruence.
Qed.

(** C5, as the code has it.  The parser declares exactly [.yaml], [.yml]
    and [.json]; a buffer is decoded as UTF-8 and parsed as that string; a
    string is loaded by [yaml.load] under [JSON_SCHEMA], and the value
    produced is the loaded one; data that is neither a string nor a buffer
    is the value produced, as it is. *)
Theorem yaml_parser_contract (P : Platform) (this : Parser) (u ext : string) :
  (forall e, In e (canParse yaml) <-> e = ".yaml" \/ e = ".yml" \/ e = ".json")
  /\ (forall b,
         parse this (mkFile u ext (JBuffer b))
         = parse this (mkFile u ext (JString (decode utf8 b))))
  /\ (forall s,
         parse this (mkFile u ext (JString s))
         = match yaml_load s JSON_SCHEMA with
           | Value v => Resolved v
           | Throws e => Rejected (ParserError (exn_message e) u)
           end)
  /\ (forall v,
         match v with
         | JString _ | JBuffer _ => True
         | _ => parse this (mkFile u ext v) = Resolved v
         end).
Proof.
  split; [|split; [|split]].
  - intros e. simpl. split.
    + intros [<-|[<-|[<-|[]]]]; auto.
    + intros [->|[->| ->]]; auto.
  - intros b. apply parse_Buffer.
  - intros s. apply parse_String.
  - intros []; auto; reflexivity.
Qed.

(** C5 as stated fails on its last clause: data that is already a
    JavaScript value is produced unchanged, and [NaN] is no JSON value. *)
Lemma yaml_parser_returns_NaN :
  @parse (loader_platform empty_is_null) yaml nan_data = Resolved (JNumber PrimFloat.nan)
  /\ is_json (JNumber PrimFloat.nan) = false.
Proof. split; reflexivity. Qed.

(** C6.  When [yaml.load] throws on the text of a string or of a buffer,
    [parse] rejects with a [ParserError] made of the exception's message
    and the URL of the file; and whatever the input, a rejection of [parse]
    is a [ParserError] with the file's URL. *)
Theorem malformed_yaml_is_ParserError (P : Platform) (this : Parser) (u ext s : string)
        (e : Exception) :
  yaml_load s JSON_SCHEMA = Throws e ->
  parse this (mkFile u ext (JString s)) = Rejected (ParserError (exn_message e) u)
  /\ (forall b, decode utf8 b = s ->
                parse this (mkFile u ext (JBuffer b))
                = Rejected (ParserError (exn_message e) u))
  /\ (forall file err,
         parse this file = Rejected err ->
         exists m, err = ParserError m (url file) /\ isParserError err = true).
Proof.
  intros Hload. split; [|split].
  - rewrite parse_String, Hload. reflexivity.
  - intros b Hb. rewrite parse_Buffer, Hb, parse_String, Hload. reflexivity.
  - intros file err. unfold parse.
    destruct (data file); simpl; try discriminate;
      match goal with |- context [yaml_load ?t _] => destruct (yaml_load t JSON_SCHEMA) end;
      try discriminate; intros [= <-]; eauto.
Qed.

Lemma malformed_yaml_is_ParserError_witness :
  @parse (loader_platform empty_is_null) yaml broken_yaml
  = Rejected (ParserError "bad indentation of a mapping entry" "file:///specs/broken.yaml").
Proof.
  apply (malformed_yaml_is_ParserError (loader_platform empty_is_null) yaml
           "file:///specs/broken.yaml" ".yaml" "a: b: c" bad_indentation).
  reflexivity.
Defined.

(** C10.  Data that is neither a buffer nor a string is returned by [parse]
    unchanged; the promise resolves, it does not reject. *)
Theorem parsed_data_passes_through (P : Platform) (this : Parser) (file : File) :
  Buffer_isBuffer (data file) = false ->
  is_string (data file) = false ->
  parse this file = Resolved (data file).
Proof. apply parse_other. Qed.

Lemma parsed_data_passes_through_witness :
  @parse (loader_platform empty_is_null) yaml sample_object = Resolved (data sample_object)
  /\ @parse (loader_platform empty_is_null) yaml nan_data = Resolved (JNumber PrimFloat.nan).
Proof.
  split.
  - apply (parsed_data_passes_through (loader_platform empty_is_null) yaml sample_object);
      reflexivity.
  - apply (parsed_data_passes_through (loader_platform empty_is_null) yaml nan_data);
      reflexivity.
Defined.

End YamlFacts.

(* ----------------------------------------------------------------- *)
(** ** The dereferencer *)

Module RefsFacts.
Import Refs RefScenarios.

Lemma loc_eqb_eq (a b : Loc) : loc_eqb a b = true <-> a = b.
Proof.
  unfold loc_eqb. destruct a as [u p], b as [u' p']. simpl.
  destruct (String.eqb_spec u u'), (list_eq_dec string_dec p p'); simpl;
    split; intros H; try discriminate; try congruence.
Qed.

Lemma loc_eqb_refl (a : Loc) : loc_eqb a a = true.
Proof. now apply loc_eqb_eq. Qed.

Lemma memo_le_refl (m : list (Loc * nat)) : memo_le m m.
Proof. intros loc i H. exact H. Qed.

Lemma memo_le_trans (m1 m2 m3 : list (Loc * nat)) :
  memo_le m1 m2 -> memo_le m2 m3 -> memo_le m1 m3.
Proof. intros H12 H23 loc i H. auto. Qed.

(** A node entered for a place that had none keeps the others. *)
Lemma memo_le_fresh (m : list (Loc * nat)) (at_ : Loc) (i : nat) :
  memo_get at_ m = None -> memo_le m ((at_, i) :: m).
Proof.
  intros Hnone loc j H. simpl.
  destruct (loc_eqb at_ loc) eqn:E; [|exact H].
  apply loc_eqb_eq in E. subst. congruence.
Qed.

Section Resolution.
Variable ds : Docs.

Lemma resolves_to_mono (m m' : list (Loc * nat)) (loc : Loc) (i : nat) :
  memo_le m m' -> resolves_to ds m loc i -> resolves_to ds m' loc i.
Proof.
  intros Hle H. induction H as [loc at_ v i Hl Hr Hm|loc at_ t v s i Hl Hr Ht _ IH].
  - eapply resolves_here; eauto.
  - eapply resolves_through; eauto.
Qed.

(** A place stands for one node at most. *)
Lemma resolves_to_functional (m : list (Loc * nat)) (loc : Loc) (i j : nat) :
  resolves_to ds m loc i -> resolves_to ds m loc j -> i = j.
Proof.
  intros H. revert j.
  induction H as [loc at_ v i Hl Hr Hm|loc at_ t v s i Hl Hr Ht _ IH]; intros j Hj.
  - inversion Hj as [? at' v' ? Hl' Hr' Hm'|? at' t' v' s' ? Hl' Hr' Ht' _]; subst;
      rewrite Hl in Hl'; injection Hl' as <- <-; congruence.
  - inversion Hj as [? at' v' ? Hl' Hr' Hm'|? at' t' v' s' ? Hl' Hr' Ht' Hres]; subst;
      rewrite Hl in Hl'; injection Hl' as <- <-; [congruence|].
    rewrite Hr in Hr'. injection Hr' as <-. rewrite Ht in Ht'. injection Ht' as <-.
    apply IH, Hres.
Qed.

(** The node of a position made from a ref node is the node that the target
    of the ref stands for. *)
Lemma resolves_to_ref (m : list (Loc * nat)) (place t : Loc) (i : nat) :
  ref_to ds place t -> resolves_to ds m place i -> resolves_to ds m t i.
Proof.
  intros (at_ & v & s & Hl & Hr & Ht) H.
  inversion H as [? at' v' ? Hl' Hr' Hm'|? at' t' v' s' ? Hl' Hr' Ht' Hres]; subst;
    rewrite Hl in Hl'; injection Hl' as <- <-; [congruence|].
  rewrite Hr in Hr'. injection Hr' as <-. rewrite Ht in Ht'. injection Ht' as <-.
  exact Hres.
Qed.

Lemma arena_ok_mono (m m' : list (Loc * nat)) (a : list (nat * Entry)) :
  memo_le m m' -> arena_ok ds m a -> arena_ok ds m' a.
Proof. intros Hle H place c Hh. eapply resolves_to_mono; eauto. Qed.

Lemma arena_ok_Leaf (m : list (Loc * nat)) (a : list (nat * Entry)) (i : nat)
      (at_ : Loc) (v : JsValue) :
  arena_ok ds m a -> arena_ok ds m ((i, mkEntry at_ (Leaf v)) :: a).
Proof.
  intros H place c (j & e & b & ch & key & [Hin|Hin] & Hn & Hk & Hp).
  - injection Hin as <- <-. discriminate.
  - apply H. exists j, e, b, ch, key. auto.
Qed.

Lemma arena_ok_Branch (m : list (Loc * nat)) (a : list (nat * Entry)) (i : nat)
      (at_ : Loc) (b : bool) (children : list (string * nat)) :
  arena_ok ds m a ->
  Forall (fun kc => resolves_to ds m (child_loc at_ (fst kc)) (snd kc)) children ->
  arena_ok ds m ((i, mkEntry at_ (Branch b children)) :: a).
Proof.
  intros H Hch place c (j & e & b' & ch & key & [Hin|Hin] & Hn & Hk & Hp).
  - injection Hin as <- <-. simpl in Hn. injection Hn as <- <-. subst place.
    rewrite Forall_forall in Hch. apply (Hch (key, c) Hk).
  - apply H. exists j, e, b', ch, key. auto.
Qed.

Variable root : string.
Variable option_circular : CircularOption.

(** The flag [circular], once set, stays set. *)
Lemma visit_children_flag
      (visit_ : State -> Pointer -> Loc -> Result (State * nat)) :
  (forall st path loc st' i,
      visit_ st path loc = Ok (st', i) ->
      st_circular st = true -> st_circular st' = true) ->
  forall tokens st path at_ st' children,
    visit_children visit_ st path at_ tokens = Ok (st', children) ->
    st_circular st = true -> st_circular st' = true.
Proof.
  intros Hv tokens. induction tokens as [|token rest IH]; intros st path at_ st' children.
  - simpl. intros [= <- <-]. auto.
  - simpl. destruct (visit_ st _ _) as [[st1 i]| |] eqn:E1; simpl; try discriminate.
    destruct (visit_children visit_ st1 path at_ rest) as [[st2 others]| |] eqn:E2;
      simpl; try discriminate.
    intros [= <- <-] Hc. eauto.
Qed.

Lemma visit_flag (fuel : nat) :
  forall via st path loc st' i,
    visit ds root option_circular fuel via st path loc = Ok (st', i) ->
    st_circular st = true -> st_circular st' = true.
Proof.
  induction fuel as [|fuel IH]; intros via st path loc st' i; [discriminate|].
  simpl. destruct (locate ds loc) as [[at_ v]| |] eqn:Hl; simpl; try discriminate.
  destruct (ref_of v) as [s|] eqn:Hr.
  - destruct (target (fst at_) s) as [t| |] eqn:Ht; simpl; try discriminate. apply IH.
  - assert (Hbranch : forall b st1,
               st_circular st1 = st_circular st ->
               (let* (st2, children) :=
                  visit_children (visit ds root option_circular fuel None)
                                 st1 path at_ (child_tokens v) in
                Ok (store (pop st2) (next st) (mkEntry at_ (Branch b children)), next st))
               = Ok (st', i) ->
               st_circular st = true -> st_circular st' = true).
    { intros b st1 Hst1.
      destruct (visit_children _ st1 path at_ (child_tokens v)) as [[st2 children]| |] eqn:Ec;
        simpl; try discriminate.
      intros [= <- <-] Hc. simpl.
      apply (visit_children_flag _ (IH None) _ _ _ _ _ _ Ec). congruence. }
    destruct via as [r|], (on_stack at_ st), (memo_get at_ (memo st)) as [j|];
      try (intros [= <- <-]; auto; fail);
      try (destruct option_circular; try discriminate; intros [= <- <-]; reflexivity);
      unfold alloc; destruct v;
        first [ intros [= <- <-]; simpl; auto; fail
              | intros Hx; refine (Hbranch _ _ _ Hx); reflexivity ].
Qed.

(** Children visited by a visitor that keeps the arena in order. *)
Lemma visit_children_sound
      (visit_ : State -> Pointer -> Loc -> Result (State * nat)) :
  (forall st path loc st' i,
      visit_ st path loc = Ok (st', i) ->
      st_circular st = true -> st_circular st' = true) ->
  (forall st path loc st' i,
      visit_ st path loc = Ok (st', i) ->
      (option_circular = ignore -> st_circular st' = false) ->
      arena_ok ds (memo st) (arena st) ->
      memo_le (memo st) (memo st') /\ arena_ok ds (memo st') (arena st')
      /\ resolves_to ds (memo st') loc i) ->
  forall tokens st path at_ st' children,
    visit_children visit_ st path at_ tokens = Ok (st', children) ->
    (option_circular = ignore -> st_circular st' = false) ->
    arena_ok ds (memo st) (arena st) ->
    memo_le (memo st) (memo st') /\ arena_ok ds (memo st') (arena st')
    /\ Forall (fun kc => resolves_to ds (memo st') (child_loc at_ (fst kc)) (snd kc))
              children.
Proof.
  intros Hflag Hv tokens.
  induction tokens as [|token rest IH]; intros st path at_ st' children.
  - simpl. intros [= <- <-] _ Hok. auto using memo_le_refl.
  - simpl. destruct (visit_ st _ _) as [[st1 i]| |] eqn:E1; simpl; try discriminate.
    destruct (visit_children visit_ st1 path at_ rest) as [[st2 others]| |] eqn:E2;
      simpl; try discriminate.
    intros [= <- <-] Hmode Hok.
    assert (Hmode1 : option_circular = ignore -> st_circular st1 = false).
    { intros Hi. specialize (Hmode Hi).
      destruct (st_circular st1) eqn:Ec; [|reflexivity].
      rewrite (visit_children_flag _ Hflag _ _ _ _ _ _ E2 Ec) in Hmode. discriminate. }
    destruct (Hv _ _ _ _ _ E1 Hmode1 Hok) as (Hle1 & Hok1 & Hres1).
    destruct (IH _ _ _ _ _ E2 Hmode Hok1) as (Hle2 & Hok2 & Hres2).
    split; [eapply memo_le_trans; eauto|]. split; [exact Hok2|].
    constructor; [|exact Hres2].
    simpl. eapply resolves_to_mono; eauto.
Qed.

(** A visit that leaves no ref in place keeps the nodes made so far, keeps
    the arena in order, and returns the node that the place stands for. *)
Lemma visit_sound (fuel : nat) :
  forall via st path loc st' i,
    visit ds root option_circular fuel via st path loc = Ok (st', i) ->
    (option_circular = ignore -> st_circular st' = false) ->
    arena_ok ds (memo st) (arena st) ->
    memo_le (memo st) (memo st') /\ arena_ok ds (memo st') (arena st')
    /\ resolves_to ds (memo st') loc i.
Proof.
  induction fuel as [|fuel IH]; intros via st path loc st' i; [discriminate|].
  simpl. destruct (locate ds loc) as [[at_ v]| |] eqn:Hl; simpl; try discriminate.
  destruct (ref_of v) as [s|] eqn:Hr.
  - destruct (target (fst at_) s) as [t| |] eqn:Ht; simpl; try discriminate.
    intros Hv Hmode Hok. destruct (IH _ _ _ _ _ _ Hv Hmode Hok) as (Hle & Hok' & Hres).
    repeat split; auto. eapply resolves_through; eauto.
  - assert (Hknown : forall j, memo_get at_ (memo st) = Some j ->
                               Ok (st, j) = Ok (st', i) ->
                               (option_circular = ignore -> st_circular st' = false) ->
                               arena_ok ds (memo st) (arena st) ->
                               memo_le (memo st) (memo st')
                               /\ arena_ok ds (memo st') (arena st')
                               /\ resolves_to ds (memo st') loc i).
    { intros j Hj [= <- <-] _ Hok. repeat split; auto using memo_le_refl.
      eapply resolves_here; eauto. }
    assert (Hnew : memo_get at_ (memo st) = None ->
                   (let (st1, i0) := alloc st at_ in
                    match v with
                    | JObject _ | JArray _ =>
                        let* (st2, children) :=
                          visit_children (visit ds root option_circular fuel None)
                                         (push at_ st1) path at_ (child_tokens v) in
                        Ok (store (pop st2) i0
                                  (mkEntry at_
                                     (Branch (match v with JArray _ => true | _ => false end)
                                             children)), i0)
                    | _ => Ok (store st1 i0 (mkEntry at_ (Leaf v)), i0)
                    end) = Ok (st', i) ->
                   (option_circular = ignore -> st_circular st' = false) ->
                   arena_ok ds (memo st) (arena st) ->
                   memo_le (memo st) (memo st')
                   /\ arena_ok ds (memo st') (arena st')
                   /\ resolves_to ds (memo st') loc i).
    { intros Hnone. unfold alloc.
      pose proof (memo_le_fresh (memo st) at_ (next st) Hnone) as Hfresh.
      assert (Hleaf : Ok (store (mkState (S (next st)) ((at_, next st) :: memo st)
                                         (arena st) (stack st) (st_circular st)
                                         (st_circularRefs st))
                                (next st) (mkEntry at_ (Leaf v)), next st)
                      = Ok (st', i) ->
                      (option_circular = ignore -> st_circular st' = false) ->
                      arena_ok ds (memo st) (arena st) ->
                      memo_le (memo st) (memo st')
                      /\ arena_ok ds (memo st') (arena st')
                      /\ resolves_to ds (memo st') loc i).
      { intros [= <- <-] _ Hok. simpl. split; [exact Hfresh|]. split.
        - apply arena_ok_Leaf. eapply arena_ok_mono; eauto.
        - eapply resolves_here; eauto. simpl. now rewrite loc_eqb_refl. }
      assert (Hbranch : forall b,
                 (let* (st2, children) :=
                    visit_children (visit ds root option_circular fuel None)
                                   (push at_ (mkState (S (next st)) ((at_, next st) :: memo st)
                                                      (arena st) (stack st) (st_circular st)
                                                      (st_circularRefs st)))
                                   path at_ (child_tokens v) in
                  Ok (store (pop st2) (next st) (mkEntry at_ (Branch b children)), next st))
                 = Ok (st', i) ->
                 (option_circular = ignore -> st_circular st' = false) ->
                 arena_ok ds (memo st) (arena st) ->
                 memo_le (memo st) (memo st')
                 /\ arena_ok ds (memo st') (arena st')
                 /\ resolves_to ds (memo st') loc i).
      { intros b.
        destruct (visit_children _ _ path at_ (child_tokens v)) as [[st2 children]| |] eqn:Ec;
          simpl; try discriminate.
        intros [= <- <-] Hmode Hok.
        destruct (visit_children_sound _ (visit_flag fuel None) (IH None) _ _ _ _ _ _ Ec)
          as (Hle & Hok2 & Hch).
        { exact Hmode. }
        { simpl. eapply arena_ok_mono; eauto. }
        simpl in Hle. simpl.
        split; [eapply memo_le_trans; eauto|]. split.
        - apply arena_ok_Branch; auto.
        - eapply resolves_here; eauto. apply Hle. simpl. now rewrite loc_eqb_refl. }
      destruct v; first [exact Hleaf | exact (Hbranch _)]. }
    destruct via as [r|], (on_stack at_ st), (memo_get at_ (memo st)) as [j|] eqn:Hm;
      try apply (Hnew eq_refl); try apply (Hknown j eq_refl).
    destruct option_circular; try discriminate.
    + intros [= <- <-] _ Hok. simpl. repeat split; auto using memo_le_refl.
      eapply resolves_here; eauto.
    + intros [= <- <-] Hmode. specialize (Hmode eq_refl). discriminate.
Qed.

End Resolution.

(** C7.  For the two documents of S1, [a.yaml] holding
    [{ foo: { $ref: "./b.yaml" } }] and [b.yaml] holding
    [{ foo: { $ref: "./a.yaml#/foo" } }]: after [parse] the catalog holds
    the root alone, [circular] is false and [circularRefs] is empty; after
    [dereference] (sharing the node in progress, or leaving the ref in
    place) both documents are in the catalog, [circular] is true and
    [circularRefs] has exactly one entry, the pointer [#/foo/foo] behind the
    root's URL. *)
Theorem direct_cycle_flags :
  (exists v cat,
      parse direct_cycle a_yaml = Ok (v, cat)
      /\ paths cat = [a_yaml] /\ circular cat = false /\ circularRefs cat = [])
  /\ (forall option_circular,
         match option_circular with
         | reject => dereference direct_cycle a_yaml reject = Err ReferenceError
         | _ =>
             exists tree cat,
               dereference direct_cycle a_yaml option_circular = Ok (tree, cat)
               /\ paths cat = [a_yaml; b_yaml]
               /\ circular cat = true
               /\ circularRefs cat = [a_yaml ++ "#/foo/foo"]
               /\ Forall (fun pointer => contains pointer "#/foo/foo") (circularRefs cat)
         end).
Proof.
  split.
  - eexists _, _. split; [vm_compute; reflexivity|]. repeat split.
  - assert (Hc : contains (a_yaml ++ "#/foo/foo") "#/foo/foo").
    { exists a_yaml, "". reflexivity. }
    intros [| |]; [|vm_compute; reflexivity|];
      (eexists _, _; split; [vm_compute; reflexivity|];
       repeat split; constructor; [exact Hc|constructor]).
Qed.



(** With the option ["ignore"] a circular ref stays as it is: in the
    schema [loop] the refs at [/a] and at [/b/c] have the same target, the
    first is replaced by the node of [/b] and the second, found while that
    node is in progress, is left in place. *)
Lemma ignore_leaves_circular_ref :
  exists tree cat,
    dereference loop root_yaml ignore = Ok (tree, cat)
    /\ circular cat = true
    /\ circularRefs cat = [root_yaml ++ "#/a/c"]
    /\ node_at tree ["a"] = Some 1%nat
    /\ node_at tree ["b"] = Some 1%nat
    /\ node_at tree ["b"; "c"] = Some 2%nat
    /\ get_node 2 (nodes tree) = Some (mkEntry (root_yaml, ["b"]) (Leaf (ref "#/b"))).
Proof.
  eexists _, _. split; [vm_compute; reflexivity|]. repeat split.
Qed.

End RefsFacts.

(* ----------------------------------------------------------------- *)
(** ** Further properties of the HTTP resolver *)

Module HttpMore.
Import HttpResolver HttpScenarios HttpNotions HttpFacts.

(** [Buffer.concat([acc, chunk])] over the chunks, from any start. *)
Lemma fold_concat (chunks : list Buffer) (acc : Buffer) :
  fold_left (fun a chunk => Buffer_concat [a; chunk]) chunks acc
  = (acc ++ List.concat chunks)%list.
Proof.
  revert acc. induction chunks as [|c cs IH]; intros acc; simpl.
  - now rewrite app_nil_r.
  - rewrite IH. unfold Buffer_concat. simpl. now rewrite app_nil_r, app_assoc.
Qed.

Section Download.
Context {P : Platform}.
Variable httpOptions : HttpOptions.

(** The exchange at which a download stops decides its outcome. *)
Lemma download_decided :
  forall u r w x,
    In x (exchanges u httpOptions (Some r) w) ->
    match reply x with
    | Rejected err =>
        exists w', download u httpOptions (Some r) w
                   = Some (Rejected (onCatch (requested x) err), w')
    | Resolved res =>
        match onResponse (requested x) httpOptions (followed x) res with
        | Throw e =>
            exists w', download u httpOptions (Some r) w
                       = Some (Rejected (onCatch (requested x) e), w')
        | Reject e =>
            exists w', download u httpOptions (Some r) w = Some (Rejected e, w')
        | Resolve b =>
            exists w', download u httpOptions (Some r) w = Some (Resolved b, w')
        | Follow _ => True
        end
    end.
Proof.
  apply (download_ind httpOptions (fun u r w => forall x,
    In x (exchanges u httpOptions (Some r) w) ->
    match reply x with
    | Rejected err =>
        exists w', download u httpOptions (Some r) w
                   = Some (Rejected (onCatch (requested x) err), w')
    | Resolved res =>
        match onResponse (requested x) httpOptions (followed x) res with
        | Throw e =>
            exists w', download u httpOptions (Some r) w
                       = Some (Rejected (onCatch (requested x) e), w')
        | Reject e =>
            exists w', download u httpOptions (Some r) w = Some (Rejected e, w')
        | Resolve b =>
            exists w', download u httpOptions (Some r) w = Some (Resolved b, w')
        | Follow _ => True
        end
    end)).
  intros u r w IH x. rewrite exchanges_eq, download_eq.
  unfold exchanges_body, download_body.
  destruct (get (url_parse u) httpOptions w) as [[res0|err] w'] eqn:G.
  2:{ intros [<-|[]]. simpl. eauto. }
  intros [<-|Hin]; simpl.
  - destruct (onResponse _ _ _ res0) eqn:E; eauto.
  - destruct (onResponse _ _ _ res0) eqn:E; try destruct Hin.
    apply (IH res0 w' _ eq_refl E x Hin).
Qed.

(** A download makes one request at least, and no more than the limit
    leaves room for. *)
Lemma exchanges_bound :
  forall u r w,
    (1 <= List.length (exchanges u httpOptions (Some r) w)
     <= S (Z.to_nat (redirects httpOptions - Z.of_nat (List.length r))))%nat.
Proof.
  apply (download_ind httpOptions (fun u r w =>
    (1 <= List.length (exchanges u httpOptions (Some r) w)
     <= S (Z.to_nat (redirects httpOptions - Z.of_nat (List.length r))))%nat)).
  intros u r w IH. rewrite exchanges_eq. unfold exchanges_body.
  destruct (get (url_parse u) httpOptions w) as [[res0|err] w'] eqn:G; [|simpl; lia].
  destruct (onResponse _ _ _ res0) eqn:E; try (simpl; lia).
  specialize (IH res0 w' _ eq_refl E).
  apply onResponse_Follow in E. destruct E as (_ & Hlen & _).
  rewrite length_app in *. simpl in *. lia.
Qed.

(** At each request the array [redirects] holds the URLs requested so far. *)
Lemma followed_so_far :
  forall u r w k x,
    nth_error (exchanges u httpOptions (Some r) w) k = Some x ->
    followed x
    = (r ++ firstn (S k) (requested_hrefs (exchanges u httpOptions (Some r) w)))%list.
Proof.
  apply (download_ind httpOptions (fun u r w => forall k x,
    nth_error (exchanges u httpOptions (Some r) w) k = Some x ->
    followed x
    = (r ++ firstn (S k) (requested_hrefs (exchanges u httpOptions (Some r) w)))%list)).
  intros u r w IH k x. rewrite exchanges_eq. unfold exchanges_body.
  destruct (get (url_parse u) httpOptions w) as [[res0|err] w'] eqn:G.
  2:{ destruct k as [|[|k]]; simpl; try discriminate. intros [= <-]. reflexivity. }
  destruct k as [|k]; simpl.
  - intros [= <-]. reflexivity.
  - destruct (onResponse _ _ _ res0) eqn:E; try (destruct k; discriminate).
    intros H. rewrite (IH res0 w' _ eq_refl E k x H).
    rewrite <- app_assoc. reflexivity.
Qed.

(** A further request is the follow-up of a redirect. *)
Lemma next_request :
  forall u r w k x y,
    nth_error (exchanges u httpOptions (Some r) w) k = Some x ->
    nth_error (exchanges u httpOptions (Some r) w) (S k) = Some y ->
    exists res location,
      reply x = Resolved res
      /\ 300 <= statusCode res < 400
      /\ Z.of_nat (List.length (followed x)) <= redirects httpOptions
      /\ lookup "location" (res_headers res) = Some location
      /\ location <> ""
      /\ requested y = url_parse (UrlStr (url_resolve (requested x) location)).
Proof.
  apply (download_ind httpOptions (fun u r w => forall k x y,
    nth_error (exchanges u httpOptions (Some r) w) k = Some x ->
    nth_error (exchanges u httpOptions (Some r) w) (S k) = Some y ->
    exists res location,
      reply x = Resolved res
      /\ 300 <= statusCode res < 400
      /\ Z.of_nat (List.length (followed x)) <= redirects httpOptions
      /\ lookup "location" (res_headers res) = Some location
      /\ location <> ""
      /\ requested y = url_parse (UrlStr (url_resolve (requested x) location)))).
  intros u r w IH k x y. rewrite exchanges_eq. unfold exchanges_body.
  destruct (get (url_parse u) httpOptions w) as [[res0|err] w'] eqn:G.
  2:{ intros _ H. simpl in H. destruct k; discriminate H. }
  destruct (onResponse _ _ _ res0) eqn:E;
    try (intros _ H; simpl in H; destruct k; discriminate H).
  destruct k as [|k]; simpl.
  - intros [= <-] Hy. simpl.
    pose proof E as E'. apply onResponse_Follow in E'.
    destruct E' as (Hs & Hlen & location & Hloc & Hne & ->).
    exists res0, location. repeat split; try assumption; try lia.
    revert Hy. rewrite exchanges_eq. unfold exchanges_body.
    destruct (get _ _ w') as [[?|?] ?]; intros [= <-]; reflexivity.
  - intros Hx Hy. apply (IH res0 w' _ eq_refl E k x y Hx Hy).
Qed.

(** A download resolves with the body of its last response, a response
    below 300 that follows 3xx ones only. *)
Lemma resolved_by_last :
  forall u r w b w1,
    download u httpOptions (Some r) w = Some (Resolved b, w1) ->
    exists front x res,
      exchanges u httpOptions (Some r) w = (front ++ [x])%list
      /\ forallb is_redirect front = true
      /\ reply x = Resolved res
      /\ statusCode res < 300
      /\ b = body res.
Proof.
  apply (download_ind httpOptions (fun u r w => forall b w1,
    download u httpOptions (Some r) w = Some (Resolved b, w1) ->
    exists front x res,
      exchanges u httpOptions (Some r) w = (front ++ [x])%list
      /\ forallb is_redirect front = true
      /\ reply x = Resolved res
      /\ statusCode res < 300
      /\ b = body res)).
  intros u r w IH b w1. rewrite exchanges_eq, download_eq.
  unfold exchanges_body, download_body.
  destruct (get (url_parse u) httpOptions w) as [[res0|err] w'] eqn:G; [|discriminate].
  destruct (onResponse_cases httpOptions (url_parse u) (r ++ [href (url_parse u)]) res0)
    as [(Hs & E)|[(Hs & Hl & E)|[(Hs & Hl & _ & E)|[(Hs & Hl & l & El & _ & E)|(Hs & E)]]]];
    cbv zeta in E; rewrite E; try discriminate.
  - intros H. destruct (IH res0 w' _ eq_refl E b w1 H) as (front & x & res & -> & Hf & Hx).
    exists (mkExchange (url_parse u) (r ++ [href (url_parse u)]) (Resolved res0) :: front),
           x, res.
    split; [reflexivity|]. split; [|exact Hx].
    simpl. rewrite Hf, andb_true_r. now apply is_redirect_Resolved.
  - intros [= <- <-].
    exists [], (mkExchange (url_parse u) (r ++ [href (url_parse u)]) (Resolved res0)), res0.
    repeat split. exact Hs.
Qed.

End Download.
(** [get] settles as the network replies: it resolves with the status and
    the headers of the response and with a body that is its chunks strung
    together in the order they came; it rejects with the error of the
    request, or of the response, as it is.  The request goes to node's
    [https] for the protocol ['https:'] and to its [http] otherwise. *)
Theorem get_collects_chunks (P : Platform) (u : Url) (httpOptions : HttpOptions)
        (w : World) :
  get u httpOptions w
  = (let (reply_, w') :=
       node_get (request_module u) (request_options u httpOptions)
                (timeout httpOptions) w in
     (settled_reply reply_, w')).
Proof.
  unfold get, request_module, request_options.
  destruct (node_get _ _ _ w) as [[e|st hs chunks [e|]] w']; simpl; try reflexivity.
  rewrite fold_concat. reflexivity.
Qed.

Lemma get_collects_chunks_witness :
  @get (table_platform three_chunks) (parse_whole (UrlStr A)) defaults 0%nat
  = (Resolved (mkRes 200 [] braces), 1%nat).
Proof.
  rewrite (get_collects_chunks (table_platform three_chunks)). reflexivity.
Defined.

(** [read] always settles, after one request at least and no more than
    [redirects] + 1 of them. *)
Theorem read_settles_within_limit (P : Platform) (this : HttpOptions) (file : File)
        (w : World) :
  (exists out, read this file w = Some out)
  /\ (1 <= List.length (read_exchanges this file w) <= S (Z.to_nat (redirects this)))%nat.
Proof.
  unfold read, read_exchanges. rewrite download_None, exchanges_None. split.
  - apply download_settles.
  - pose proof (exchanges_bound this (UrlObj (read_url file)) [] w) as H.
    simpl in H. rewrite Z.sub_0_r in H. exact H.
Qed.

(** With [redirects] at zero (or below) nothing is followed: [read] makes
    one request, and a 3xx response to it is rejected on the
    too-many-redirects branch, whether it has a [Location] or not. *)
Theorem zero_redirects_follows_nothing (P : Platform) (this : HttpOptions)
        (file : File) (w : World) :
  redirects this <= 0 ->
  exists x,
    read_exchanges this file w = [x]
    /\ forall res,
         reply x = Resolved res ->
         300 <= statusCode res < 400 ->
         exists w',
           read this file w
           = Some (Rejected (ResolverError
                               (OnoProps (statusCode res)
                                         (too_many_redirects [href (requested x)]))
                               None), w').
Proof.
  intros Hz. unfold read, read_exchanges. rewrite download_None, exchanges_None.
  pose proof (exchanges_bound this (UrlObj (read_url file)) [] w) as Hb.
  pose proof (followed_so_far this (UrlObj (read_url file)) [] w 0) as Hf.
  pose proof (download_decided this (UrlObj (read_url file)) [] w) as Hd.
  destruct (exchanges (UrlObj (read_url file)) this (Some []) w) as [|x [|y xs]];
    simpl in Hb; try (replace (Z.to_nat (redirects this - 0)) with 0%nat in Hb by lia; lia).
  exists x. split; [reflexivity|]. intros res Hr Hs.
  specialize (Hf x eq_refl). simpl in Hf.
  specialize (Hd x (or_introl eq_refl)). rewrite Hr in Hd.
  destruct (onResponse_cases this (requested x) (followed x) res)
    as [(Hs' & E)|[(Hs' & Hl & E)|[(Hs' & Hl & _ & E)|[(Hs' & Hl & l & El & _ & E)|(Hs' & E)]]]];
    cbv zeta in E; rewrite Hf in Hl || idtac; simpl in Hl || idtac; try lia.
  rewrite E in Hd. rewrite Hf in Hd. exact Hd.
Qed.

Lemma zero_redirects_follows_nothing_witness :
  exists x,
    @read_exchanges (table_platform chain_AB) (with_redirects 0) fileA 0%nat = [x]
    /\ forall res,
         reply x = Resolved res ->
         300 <= statusCode res < 400 ->
         exists w',
           @read (table_platform chain_AB) (with_redirects 0) fileA 0%nat
           = Some (Rejected (ResolverError
                               (OnoProps (statusCode res)
                                         (too_many_redirects [href (requested x)]))
                               None), w').
Proof.
  apply (zero_redirects_follows_nothing (table_platform chain_AB) (with_redirects 0)
                                        fileA 0%nat).
  simpl. lia.
Defined.

(** At each request of a [read] the array [redirects] holds the URLs
    requested up to then, that one included, in order. *)
Theorem redirects_array_tracks_requests (P : Platform) (this : HttpOptions)
        (file : File) (w : World) (k : nat) (x : Exchange) :
  nth_error (read_exchanges this file w) k = Some x ->
  followed x = firstn (S k) (requested_hrefs (read_exchanges this file w)).
Proof.
  unfold read_exchanges. rewrite exchanges_None. intros H.
  apply (followed_so_far this _ [] w k x H).
Qed.

Lemma redirects_array_tracks_requests_witness :
  followed (mkExchange (parse_whole (UrlStr C)) [A; B; C]
                       (Resolved (mkRes 302 [("location", D)] [])))
  = firstn 3 (requested_hrefs
                (@read_exchanges (table_platform chain_ABCD) defaults fileA 0%nat)).
Proof.
  apply (redirects_array_tracks_requests (table_platform chain_ABCD) defaults fileA 0%nat 2).
  reflexivity.
Defined.

(** A [read] requests a further URL only as the follow-up of a redirect:
    the response before it has a 3xx status and a non-empty [location], the
    array [redirects] was within the limit, and the URL requested is that
    [location] resolved against the URL of the request before. *)
Theorem requests_only_follow_redirects (P : Platform) (this : HttpOptions)
        (file : File) (w : World) (k : nat) (x y : Exchange) :
  nth_error (read_exchanges this file w) k = Some x ->
  nth_error (read_exchanges this file w) (S k) = Some y ->
  exists res location,
    reply x = Resolved res
    /\ 300 <= statusCode res < 400
    /\ Z.of_nat (List.length (followed x)) <= redirects this
    /\ lookup "location" (res_headers res) = Some location
    /\ location <> ""
    /\ requested y = url_parse (UrlStr (url_resolve (requested x) location)).
Proof.
  unfold read_exchanges. rewrite exchanges_None. apply next_request.
Qed.

Lemma requests_only_follow_redirects_witness :
  exists res location,
    Resolved (mkRes 302 [("location", B)] []) = Resolved res
    /\ 300 <= statusCode res < 400
    /\ Z.of_nat (List.length [A]) <= redirects defaults
    /\ lookup "location" (res_headers res) = Some location
    /\ location <> ""
    /\ parse_whole (UrlStr B) = parse_whole (UrlStr (location)).
Proof.
  apply (requests_only_follow_redirects
           (table_platform chain_AB) defaults fileA 0%nat 0
           (mkExchange (parse_whole (UrlStr A)) [A] (Resolved (mkRes 302 [("location", B)] [])))
           (mkExchange (parse_whole (UrlStr B)) [A; B]
                       (Resolved (mkRes 200 [("content-type", "application/json")] braces))));
    reflexivity.
Defined.

(** [read] resolves only with the body of a response whose status is
    below 300, the last one received; every response before it was a
    3xx one. *)
Theorem read_resolves_with_last_body (P : Platform) (this : HttpOptions)
        (file : File) (w w1 : World) (b : Buffer) :
  read this file w = Some (Resolved b, w1) ->
  exists front x res,
    read_exchanges this file w = (front ++ [x])%list
    /\ forallb is_redirect front = true
    /\ reply x = Resolved res
    /\ statusCode res < 300
    /\ b = body res.
Proof.
  unfold read, read_exchanges. rewrite download_None, exchanges_None.
  apply resolved_by_last.
Qed.

Lemma read_resolves_with_last_body_witness :
  exists front x res,
    @read_exchanges (table_platform chain_AB) defaults fileA 0%nat = (front ++ [x])%list
    /\ forallb is_redirect front = true
    /\ reply x = Resolved res
    /\ statusCode res < 300
    /\ braces = body res.
Proof.
  apply (read_resolves_with_last_body (table_platform chain_AB) defaults fileA
                                      0%nat 2%nat braces).
  reflexivity.
Defined.

(** An error of the network, on the request or on the response, at any
    request of a [read] makes the read fail with a [ResolverError] that
    wraps that very error, names the URL of the failed request in its
    message and has it as its source. *)
Theorem network_error_wrapped (P : Platform) (this : HttpOptions) (file : File)
        (w : World) (x : Exchange) (err : JsError) :
  In x (read_exchanges this file w) ->
  reply x = Rejected err ->
  exists w',
    read this file w
    = Some (Rejected (ResolverError
                        (OnoWrap err ("Error downloading " ++ href (requested x)))
                        (Some (href (requested x)))), w').
Proof.
  unfold read, read_exchanges. rewrite download_None, exchanges_None.
  intros Hin Hr.
  pose proof (download_decided this _ [] w x Hin) as Hd. rewrite Hr in Hd. exact Hd.
Qed.

Lemma network_error_wrapped_witness :
  (exists w',
      @read (table_platform nobody_home) defaults fileA 0%nat
      = Some (Rejected (ResolverError
                          (OnoWrap (Plain (mkException "Error" "getaddrinfo ENOTFOUND"))
                                   ("Error downloading " ++ A))
                          (Some A)), w'))
  /\ (exists w',
         @read (table_platform broken_stream) defaults fileA 0%nat
         = Some (Rejected (ResolverError
                             (OnoWrap connection_reset ("Error downloading " ++ B))
                             (Some B)), w')).
Proof.
  split.
  - apply (network_error_wrapped
             (table_platform nobody_home) defaults fileA 0%nat
             (mkExchange (parse_whole (UrlStr A)) [A]
                         (Rejected (Plain (mkException "Error" "getaddrinfo ENOTFOUND"))))).
    + left. reflexivity.
    + reflexivity.
  - apply (network_error_wrapped
             (table_platform broken_stream) defaults fileA 0%nat
             (mkExchange (parse_whole (UrlStr B)) [A; B] (Rejected connection_reset))).
    + right. left. reflexivity.
    + reflexivity.
Defined.

(** The errors that [read] makes of a response: for a status of 400 or
    more the cause says [HTTP ERROR] and the status; for a 3xx response
    within the limit whose [location] is missing or empty it says that the
    redirect has no location header.  Either cause keeps the status, and is
    wrapped with the URL of the request, which is the source as well. *)
Theorem status_error_cause (P : Platform) (this : HttpOptions) (file : File)
        (w : World) (x : Exchange) (res : Res) :
  In x (read_exchanges this file w) ->
  reply x = Resolved res ->
  let st := statusCode res in
  let wrapped cause :=
    ResolverError (OnoWrap cause ("Error downloading " ++ href (requested x)))
                  (Some (href (requested x))) in
  (400 <= st ->
   exists w',
     read this file w
     = Some (Rejected (wrapped (OnoProps st ("HTTP ERROR " ++ string_of_Z st))), w'))
  /\ (300 <= st < 400 ->
      Z.of_nat (List.length (followed x)) <= redirects this ->
      truthy (lookup "location" (res_headers res)) = false ->
      exists w',
        read this file w
        = Some (Rejected
                  (wrapped (OnoProps st ("HTTP " ++ string_of_Z st
                                                 ++ " redirect with no location header"))),
                w')).
Proof.
  unfold read, read_exchanges. rewrite download_None, exchanges_None.
  intros Hin Hr. cbv zeta.
  pose proof (download_decided this _ [] w x Hin) as Hd. rewrite Hr in Hd.
  destruct (onResponse_cases this (requested x) (followed x) res)
    as [(Hs' & E)|[(Hs' & Hl & E)|[(Hs' & Hl & Ht & E)|[(Hs' & Hl & l & El & Hne & E)|(Hs' & E)]]]];
    cbv zeta in *; rewrite E in Hd; split; intros; try lia; try exact Hd.
  rewrite El in *. simpl in *. destruct (String.eqb_spec l ""); [tauto|discriminate].
Qed.

Lemma status_error_cause_witness :
  (exists w',
      @read (table_platform not_found) defaults fileA 0%nat
      = Some (Rejected (ResolverError
                          (OnoWrap (OnoProps 404 ("HTTP ERROR " ++ string_of_Z 404))
                                   ("Error downloading " ++ A))
                          (Some A)), w'))
  /\ (exists w',
         @read (table_platform empty_location) defaults fileA 0%nat
         = Some (Rejected
                   (ResolverError
                      (OnoWrap (OnoProps 302 ("HTTP " ++ string_of_Z 302
                                                      ++ " redirect with no location header"))
                               ("Error downloading " ++ A))
                      (Some A)), w')).
Proof.
  split.
  - apply (proj1 (status_error_cause
                    (table_platform not_found) defaults fileA 0%nat
                    (mkExchange (parse_whole (UrlStr A)) [A] (Resolved (mkRes 404 [] [])))
                    (mkRes 404 [] []) (or_introl eq_refl) eq_refl)).
    simpl. lia.
  - apply (proj2 (status_error_cause
                    (table_platform empty_location) defaults fileA 0%nat
                    (mkExchange (parse_whole (UrlStr A)) [A]
                                (Resolved (mkRes 302 [("location", "")] [])))
                    (mkRes 302 [("location", "")] []) (or_introl eq_refl) eq_refl)).
    + simpl. lia.
    + simpl. lia.
    + reflexivity.
Defined.

(** Whatever goes wrong, [read] rejects with a [ResolverError], never with
    the raw error of the network or of [ono]. *)
Theorem read_rejects_with_ResolverError (P : Platform) (this : HttpOptions)
        (file : File) (w w' : World) (e : JsError) :
  read this file w = Some (Rejected e, w') ->
  isResolverError e = true /\ exists ex source, e = ResolverError ex source.
Proof.
  unfold read. rewrite download_None. intros H.
  destruct (download_rejections this _ [] w e w' H) as (ex & last & _ & [->|(st & -> & _)]);
    simpl; eauto.
Qed.

Lemma read_rejects_with_ResolverError_witness :
  isResolverError
    (ResolverError (OnoWrap connection_reset ("Error downloading " ++ B)) (Some B)) = true
  /\ exists ex source,
       ResolverError (OnoWrap connection_reset ("Error downloading " ++ B)) (Some B)
       = ResolverError ex source.
Proof.
  apply (read_rejects_with_ResolverError (table_platform broken_stream) defaults fileA
                                         0%nat 2%nat).
  reflexivity.
Defined.

End HttpMore.

(* ----------------------------------------------------------------- *)
(** ** Further properties of the YAML parser *)

Module YamlMore.
Import YamlParser YamlScenarios YamlNotions.


(** [parse] looks at [data] alone: two files with the same data, whatever
    their URLs and extensions and whatever the parser objects, resolve with
    the same value or reject with the same message, each error under the
    URL of its own file. *)
Theorem parse_depends_on_data (P : Platform) (this this' : Parser) (file file' : File) :
  data file = data file' ->
  (forall v, parse this file = Resolved v -> parse this' file' = Resolved v)
  /\ (forall m,
         parse this file = Rejected (ParserError m (url file)) ->
         parse this' file' = Rejected (ParserError m (url file'))).
Proof.
  intros Hd. unfold parse. rewrite <- Hd. split.
  - intros v. destruct (data file); auto;
      match goal with |- context [yaml_load ?t _] => destruct (yaml_load t JSON_SCHEMA) end;
      auto; discriminate.
  - intros m. destruct (data file); try discriminate;
      match goal with |- context [yaml_load ?t _] => destruct (yaml_load t JSON_SCHEMA) end;
      try discriminate; intros [= ->]; reflexivity.
Qed.

Lemma parse_depends_on_data_witness :
  @parse (loader_platform empty_is_null) (with_allowEmpty false) renamed_broken_yaml
  = Rejected (ParserError "bad indentation of a mapping entry" "http://example.com/other.txt").
Proof.
  apply (proj2 (parse_depends_on_data (loader_platform empty_is_null) yaml
                                      (with_allowEmpty false) broken_yaml
                                      renamed_broken_yaml eq_refl)
               "bad indentation of a mapping entry").
  reflexivity.
Defined.

End YamlMore.
